(** * MoviePathways: the itinerary engine of [src/utils.ts]

    A shallow embedding of the planning core (schedule builder, transition
    evaluator, feasibility graph, beam search, finalizer and ranker) and
    the properties stated about it.

    Numbers.  Every number the engine handles is an integer in practice
    (epoch milliseconds, minutes, ranks, counts); they are modelled as [Z].
    On integers [Number.isFinite] is [true] and [Math.trunc] is the
    identity, which is how [clampInt] reads below.  A timestamp that does
    not parse ([NaN] in the source) is [None].

    Failure.  Reading an array out of range yields [undefined] in
    JavaScript, and the next property access raises [TypeError].  The
    search is therefore written in the [option] monad: [None] stands for
    such a failed read.  [generateItineraries_total] shows that it never
    happens. *)

From stdpp Require Import base option list strings gmap sorting.
From Stdlib Require Import ZArith Lia Ascii.

Local Open Scope Z_scope.

(** ** Data model ([types.ts]) *)

Record Movie := mkMovie {
  m_id : string;
  m_title : string;
  m_runtimeMins : Z;
  m_rank : option Z            (* [rank?: number]; [None] = unranked *)
}.

Record Theater := mkTheater {
  th_id : string;
  th_name : string
}.

Record Showtime := mkShowtime {
  st_id : string;
  st_movieId : string;
  st_theaterId : string;
  st_startLocal : string
}.

Record Settings := mkSettings {
  trailerLeewayMins : Z;       (* X *)
  travelMins : Z;              (* T *)
  maxResults : Z;              (* K *)
  beamWidth : Z
}.

Record AppState := mkAppState {
  settings : Settings;
  movies : list Movie;
  theaters : list Theater;
  showtimes : list Showtime
}.

Record ScheduledShow := mkScheduledShow {
  showtimeId : string;
  movieId : string;
  theaterId : string;
  startMs : Z;
  endMs : Z
}.

Record Itinerary := mkItinerary {
  shows : list ScheduledShow;
  preferenceScore : Z;
  movieCount : Z;
  finishMs : Z;
  totalTravelMins : Z
}.

(** The search-internal [Partial] of [generateItineraries]. *)
Record Partial := mkPartial {
  lastIdx : nat;
  usedMovieIds : gset string;
  usedShowtimeIds : gset string;
  p_shows : list ScheduledShow;
  p_preferenceScore : Z;
  p_totalTravelMins : Z
}.

(** The result of [canTransition]. *)
Record Transition := mkTransition {
  ok : bool;
  travelAppliedMins : Z
}.

(** ** Array primitives *)

(** [Array.prototype.sort(cmp)]: the standard fixes the result for a
    consistent comparator as the stable ordering of the input; a stable
    insertion sort computes it ([sortBy_unique] shows that no other
    sorted stable arrangement exists).  [cmp a b <= 0] keeps [a] in
    front. *)
Section Sort.
Context {A : Type} (cmp : A → A → Z).

Fixpoint insertBy (x : A) (l : list A) : list A :=
  match l with
  | [] => [x]
  | y :: l' => if cmp x y <=? 0 then x :: y :: l' else y :: insertBy x l'
  end.

Fixpoint sortBy (l : list A) : list A :=
  match l with
  | [] => []
  | x :: l' => insertBy x (sortBy l')
  end.
End Sort.

(** [arr.slice(0, e)]: a negative [e] counts from the end of the array. *)
Definition slice0 {A : Type} (l : list A) (e : Z) : list A :=
  let len := Z.of_nat (length l) in
  let final := if e <? 0 then Z.max (len + e) 0 else Z.min e len in
  take (Z.to_nat final) l.

(** ** utils.ts *)

Definition clampInt (n min max : Z) : Z :=
  Z.max min (Z.min max n).

Definition moviePreferencePoints (movie : Movie) : Z :=
  match m_rank movie with
  | None => 0
  | Some rank => let r := clampInt rank 1 9999 in 100000 - r
  end.

(** [new Map(movies.map(m => [m.id, m]))]: a later entry replaces an
    earlier one with the same key. *)
Definition movieMap (ms : list Movie) : gmap string Movie :=
  foldl (λ acc m, <[m_id m := m]> acc) ∅ ms.

Definition canTransition (a b : ScheduledShow)
    (trailerLeewayMins travelMins : Z) : Transition :=
  if startMs b <? startMs a then mkTransition false 0
  else
    let travelAppliedMins :=
      if String.eqb (theaterId a) (theaterId b) then 0 else travelMins in
    let arriveDeadlineMs := startMs b + trailerLeewayMins * 60000 in
    let earliestArrivalMs := endMs a + travelAppliedMins * 60000 in
    mkTransition (earliestArrivalMs <=? arriveDeadlineMs) travelAppliedMins.

Definition itineraryScore (it : Itinerary) : Z * Z * Z :=
  (preferenceScore it, movieCount it, - finishMs it).

Definition cmpItinerary (a b : Itinerary) : Z :=
  if negb (preferenceScore b =? preferenceScore a)
  then preferenceScore b - preferenceScore a
  else if negb (movieCount b =? movieCount a)
  then movieCount b - movieCount a
  else finishMs a - finishMs b.

Definition sortItineraries (its : list Itinerary) : list Itinerary :=
  sortBy cmpItinerary its.

Section Engine.
(** The platform's date parser, [new Date(local).getTime()], with
    [None] for [NaN]. *)
Variable Date_getTime : string → option Z.

Definition parseLocalDateTimeToMs (local : string) : option Z :=
  match Date_getTime local with
  | Some ms => Some ms
  | None => None
  end.

(** One turn of the loop of [buildScheduledShows]; [None] is [continue]. *)
Definition scheduleShow (movieById : gmap string Movie) (st : Showtime)
    : option ScheduledShow :=
  match movieById !! st_movieId st with
  | None => None
  | Some m =>
    match parseLocalDateTimeToMs (st_startLocal st) with
    | None => None
    | Some startMs =>
      let endMs := startMs + m_runtimeMins m * 60000 in
      Some (mkScheduledShow (st_id st) (st_movieId st) (st_theaterId st)
              startMs endMs)
    end
  end.

Definition cmpStart (a b : ScheduledShow) : Z := startMs a - startMs b.

Definition buildScheduledShows (state : AppState) : list ScheduledShow :=
  let movieById := movieMap (movies state) in
  let out := omap (scheduleShow movieById) (showtimes state) in
  sortBy cmpStart out.

(** *** The feasibility graph *)

(** The inner loop [for (j = i + 1; j < n; j++)] of the adjacency pass,
    over the shows that follow [a]; it fills [nexts[i]] (first
    component) and [travelCost[i]] (second component) in parallel. *)
Fixpoint scanRow (X T : Z) (a : ScheduledShow) (j : nat)
    (rest : list ScheduledShow) : list nat * list Z :=
  match rest with
  | [] => ([], [])
  | b :: rest' =>
    let res := canTransition a b X T in
    let row := scanRow X T a (S j) rest' in
    if ok res then (j :: row.1, travelAppliedMins res :: row.2) else row
  end.

Definition adjacency (X T : Z) (shows : list ScheduledShow)
    : list (list nat * list Z) :=
  imap (λ i a, scanRow X T a (S i) (drop (S i) shows)) shows.

(** *** The beam search *)

Definition showPoints (movieById : gmap string Movie) (s : ScheduledShow)
    : Z :=
  match movieById !! movieId s with
  | Some m => moviePreferencePoints m
  | None => 0
  end.

Definition initial (movieById : gmap string Movie)
    (shows : list ScheduledShow) : list Partial :=
  imap (λ idx s,
          let score := showPoints movieById s in
          mkPartial idx {[movieId s]} {[showtimeId s]} [s] score 0)
       shows.

(** The dedupe key of [finalize]:
    [shows.map(s => s.showtimeId).join(">")]. *)
Definition chainKey (l : list ScheduledShow) : string :=
  String.concat ">" (showtimeId <$> l).

(** [finalize], on the pair ([finished], [seenItineraryKeys]). *)
Definition finalize (p : Partial) (acc : list Itinerary * gset string)
    : option (list Itinerary * gset string) :=
  match last (p_shows p) with
  | None => None
  | Some lastShow =>
    let finishMs := endMs lastShow in
    let it := mkItinerary (p_shows p) (p_preferenceScore p)
                (Z.of_nat (length (p_shows p))) finishMs
                (p_totalTravelMins p) in
    let key := chainKey (shows it) in
    if decide (key ∈ acc.2) then Some acc
    else Some (acc.1 ++ [it], {[key]} ∪ acc.2)
  end.

Fixpoint finalizeAll (beam : list Partial)
    (acc : list Itinerary * gset string)
    : option (list Itinerary * gset string) :=
  match beam with
  | [] => Some acc
  | p :: beam' =>
    match finalize p acc with
    | None => None
    | Some acc' => finalizeAll beam' acc'
    end
  end.

(** The loop [for (k = 0; k < candidates.length; k++)] for one beam
    member [p], from position [k] on. *)
Fixpoint expandFrom (movieById : gmap string Movie)
    (shows : list ScheduledShow) (p : Partial) (costs : list Z)
    (k : nat) (candidates : list nat) : option (list Partial) :=
  match candidates with
  | [] => Some []
  | j :: candidates' =>
    match shows !! j with
    | None => None
    | Some nextShow =>
      if decide (showtimeId nextShow ∈ usedShowtimeIds p)
      then expandFrom movieById shows p costs (S k) candidates'
      else if decide (movieId nextShow ∈ usedMovieIds p)
      then expandFrom movieById shows p costs (S k) candidates'
      else
        let addScore := showPoints movieById nextShow in
        match costs !! k with
        | None => None
        | Some addTravel =>
          let q := mkPartial j
                     (usedMovieIds p ∪ {[movieId nextShow]})
                     (usedShowtimeIds p ∪ {[showtimeId nextShow]})
                     (p_shows p ++ [nextShow])
                     (p_preferenceScore p + addScore)
                     (p_totalTravelMins p + addTravel) in
          match expandFrom movieById shows p costs (S k) candidates' with
          | None => None
          | Some rest => Some (q :: rest)
          end
        end
    end
  end.

Definition expand (movieById : gmap string Movie)
    (shows : list ScheduledShow) (nexts : list (list nat))
    (travelCost : list (list Z)) (p : Partial) : option (list Partial) :=
  let i := lastIdx p in
  match nexts !! i, travelCost !! i with
  | Some candidates, Some costs =>
    expandFrom movieById shows p costs 0 candidates
  | _, _ => None
  end.

Fixpoint expandAll (movieById : gmap string Movie)
    (shows : list ScheduledShow) (nexts : list (list nat))
    (travelCost : list (list Z)) (beam : list Partial)
    : option (list Partial) :=
  match beam with
  | [] => Some []
  | p :: beam' =>
    match expand movieById shows nexts travelCost p with
    | None => None
    | Some here =>
      match expandAll movieById shows nexts travelCost beam' with
      | None => None
      | Some rest => Some (here ++ rest)
      end
    end
  end.

(** End instant of the last show of a chain.  The source reads
    [shows[shows.length - 1].endMs]; the chains the search builds are
    never empty ([chain_nonempty], kept by [expandAll_ok]), so the second
    branch is not reached. *)
Definition lastEndMs (l : list ScheduledShow) : Z :=
  match last l with
  | Some s => endMs s
  | None => 0
  end.

(** The comparator of [expanded.sort]. *)
Definition cmpPartial (a b : Partial) : Z :=
  if negb (p_preferenceScore b =? p_preferenceScore a)
  then p_preferenceScore b - p_preferenceScore a
  else if negb (Nat.eqb (length (p_shows b)) (length (p_shows a)))
  then Z.of_nat (length (p_shows b)) - Z.of_nat (length (p_shows a))
  else
    let af := lastEndMs (p_shows a) in
    let bf := lastEndMs (p_shows b) in
    if negb (af =? bf) then af - bf
    else p_totalTravelMins a - p_totalTravelMins b.

(** The loop [for (step = 0; step < n; step++)]; [steps] counts the
    turns that remain. *)
Fixpoint search (movieById : gmap string Movie)
    (shows : list ScheduledShow) (nexts : list (list nat))
    (travelCost : list (list Z)) (W : Z) (steps : nat)
    (beam : list Partial) (acc : list Itinerary * gset string)
    : option (list Itinerary * gset string) :=
  match steps with
  | O => Some acc
  | S steps' =>
    match finalizeAll beam acc with
    | None => None
    | Some acc' =>
      match expandAll movieById shows nexts travelCost beam with
      | None => None
      | Some expanded =>
        if Nat.eqb (length expanded) 0 then Some acc'
        else
          let beam' := slice0 (sortBy cmpPartial expanded) W in
          search movieById shows nexts travelCost W steps' beam' acc'
      end
    end
  end.

(** Everything up to the final ranking: the list [finished]. *)
Definition finishedItineraries (state : AppState)
    : option (list Itinerary) :=
  let X := trailerLeewayMins (settings state) in
  let T := travelMins (settings state) in
  let W := beamWidth (settings state) in
  let movieById := movieMap (movies state) in
  let shows := buildScheduledShows state in
  let n := length shows in
  let adj := adjacency X T shows in
  let nexts := adj.*1 in
  let travelCost := adj.*2 in
  match search movieById shows nexts travelCost W n
          (initial movieById shows) ([], ∅) with
  | None => None
  | Some acc => Some acc.1
  end.

Definition generateItineraries (state : AppState)
    : option (list Itinerary) :=
  let K := maxResults (settings state) in
  let n := length (buildScheduledShows state) in
  if Nat.eqb n 0 then Some []
  else
    match finishedItineraries state with
    | None => None
    | Some finished =>
      Some (slice0 (sortItineraries finished) (clampInt K 1 200))
    end.

End Engine.

(** ** Notions used to state the properties *)

(** Total preference points of a collection of movies. *)
Definition sumPoints (ms : list Movie) : Z :=
  foldr (λ m acc, moviePreferencePoints m + acc) 0 ms.

(** The movie an entry refers to: of the movies with the given identity,
    the one listed last (the one [Map] keeps). *)
Definition resolveMovie (ms : list Movie) (id : string) : option Movie :=
  last (filter (λ m, m_id m = id) ms).

(** The scheduled instance of a showtime entry as the specification
    describes it: the entry is dropped when its movie does not resolve or
    its start does not parse; otherwise the end is the start plus the
    runtime. *)
Definition scheduledInstance (parse : string → option Z) (ms : list Movie)
    (st : Showtime) : option ScheduledShow :=
  match resolveMovie ms (st_movieId st), parse (st_startLocal st) with
  | Some m, Some start =>
    Some (mkScheduledShow (st_id st) (st_movieId st) (st_theaterId st)
            start (start + m_runtimeMins m * 60000))
  | _, _ => None
  end.

(** The feasibility rule between two consecutive shows of a chain under
    leeway [X] and travel [T]. *)
Definition feasible (X T : Z) (a b : ScheduledShow) : Prop :=
  startMs a <= startMs b ∧
  endMs a + (if decide (theaterId a = theaterId b) then 0 else T) * 60000
    <= startMs b + X * 60000.

Definition linked (X T : Z) (l : list ScheduledShow) : Prop :=
  ∀ i a b, l !! i = Some a → l !! S i = Some b → feasible X T a b.

Definition itineraryKey (it : Itinerary) : string := chainKey (shows it).

Definition chainPoints (movieById : gmap string Movie)
    (l : list ScheduledShow) : Z :=
  foldr (λ s acc, showPoints movieById s + acc) 0 l.

(** A well-formed chain over the scheduled instances. *)
Record chain_ok (X T : Z) (scheduled l : list ScheduledShow) : Prop := {
  chain_nonempty : l ≠ [];
  chain_linked : linked X T l;
  chain_movies : NoDup (movieId <$> l);
  chain_showtimes : NoDup (showtimeId <$> l);
  chain_scheduled : Forall (λ s, s ∈ scheduled) l
}.

(** The invariant of every [Partial] the search holds. *)
Record partial_ok (X T : Z) (movieById : gmap string Movie)
    (scheduled : list ScheduledShow) (p : Partial) : Prop := {
  partial_chain : chain_ok X T scheduled (p_shows p);
  partial_last : scheduled !! lastIdx p = last (p_shows p);
  partial_movies : ∀ x, x ∈ usedMovieIds p ↔ x ∈ movieId <$> p_shows p;
  partial_showtimes :
    ∀ x, x ∈ usedShowtimeIds p ↔ x ∈ showtimeId <$> p_shows p;
  partial_score : p_preferenceScore p = chainPoints movieById (p_shows p)
}.

(** The invariant of every [Itinerary] in [finished]. *)
Record itinerary_ok (X T : Z) (movieById : gmap string Movie)
    (scheduled : list ScheduledShow) (it : Itinerary) : Prop := {
  itinerary_chain : chain_ok X T scheduled (shows it);
  itinerary_score : preferenceScore it = chainPoints movieById (shows it);
  itinerary_count : movieCount it = Z.of_nat (length (shows it));
  itinerary_finish : finishMs it = lastEndMs (shows it)
}.

(** The invariant of the pair ([finished], [seenItineraryKeys]). *)
Record finished_ok (X T : Z) (movieById : gmap string Movie)
    (scheduled : list ScheduledShow)
    (acc : list Itinerary * gset string) : Prop := {
  finished_itineraries : Forall (itinerary_ok X T movieById scheduled) acc.1;
  finished_distinct : NoDup (itineraryKey <$> acc.1);
  finished_seen : ∀ k, k ∈ acc.2 ↔ k ∈ itineraryKey <$> acc.1
}.

(** The invariant of the adjacency arrays. *)
Record graph_ok (X T : Z) (scheduled : list ScheduledShow)
    (nexts : list (list nat)) (travelCost : list (list Z)) : Prop := {
  graph_nexts : length nexts = length scheduled;
  graph_costs : length travelCost = length scheduled;
  graph_edges :
    ∀ i a candidates costs k j,
      scheduled !! i = Some a → nexts !! i = Some candidates →
      travelCost !! i = Some costs → candidates !! k = Some j →
      ∃ b, scheduled !! j = Some b ∧ ok (canTransition a b X T) = true
           ∧ is_Some (costs !! k)
}.

(** The three-level order of the global ranker: preference score
    descending, then movie count descending, then finish instant
    ascending. *)
Definition ranksBefore (a b : Itinerary) : Prop :=
  preferenceScore b < preferenceScore a
  ∨ (preferenceScore a = preferenceScore b
     ∧ (movieCount b < movieCount a
        ∨ (movieCount a = movieCount b ∧ finishMs a <= finishMs b))).

(** The same input with another beam width. *)
Definition withBeamWidth (state : AppState) (W : Z) : AppState :=
  mkAppState
    (mkSettings (trailerLeewayMins (settings state))
       (travelMins (settings state)) (maxResults (settings state)) W)
    (movies state) (theaters state) (showtimes state).

(** The best preference score among [its] is at most the best among
    [its']: every score of [its] is matched or beaten in [its']. *)
Definition bestScoreLe (its its' : list Itinerary) : Prop :=
  ∀ it, it ∈ its →
    ∃ it', it' ∈ its' ∧ preferenceScore it <= preferenceScore it'.

(** The search discards no candidate: at every layer the expansions fit
    within the beam width.  The recursion follows [search]. *)
Fixpoint neverPrunes (movieById : gmap string Movie)
    (shows : list ScheduledShow) (nexts : list (list nat))
    (travelCost : list (list Z)) (W : Z) (steps : nat)
    (beam : list Partial) : bool :=
  match steps with
  | O => true
  | S steps' =>
    match expandAll movieById shows nexts travelCost beam with
    | None => true
    | Some expanded =>
      if Nat.eqb (length expanded) 0 then true
      else
        (Z.of_nat (length expanded) <=? W)
        && neverPrunes movieById shows nexts travelCost W steps'
             (slice0 (sortBy cmpPartial expanded) W)
    end
  end.

Definition beamNeverPrunes (parse : string → option Z) (state : AppState)
    : bool :=
  let shows := buildScheduledShows parse state in
  let adj := adjacency (trailerLeewayMins (settings state))
               (travelMins (settings state)) shows in
  let movieById := movieMap (movies state) in
  neverPrunes movieById shows adj.*1 adj.*2 (beamWidth (settings state))
    (length shows) (initial movieById shows).

(** The character [c] occurs in [s]. *)
Fixpoint occurs (c : ascii) (s : string) : bool :=
  match s with
  | EmptyString => false
  | String d s' => Ascii.eqb c d || occurs c s'
  end.

(** ** utils.ts and App.tsx: the state and its updaters

    [App] changes its state through [setState(s => ...)]; each updater
    below is the function passed to [setState].  The identity a new
    record receives comes from [uid()], which draws on [Math.random] and
    [Date.now]: it is the argument [newId].  [String.prototype.trim] is a
    parameter as well. *)

Definition buildDefaultState : AppState :=
  mkAppState (mkSettings 20 15 20 200) [] [] [].

Definition deleteMovie (id : string) (s : AppState) : AppState :=
  mkAppState (settings s)
    (filter (λ m, m_id m ≠ id) (movies s))
    (theaters s)
    (filter (λ st, st_movieId st ≠ id) (showtimes s)).

Definition deleteTheater (id : string) (s : AppState) : AppState :=
  mkAppState (settings s)
    (movies s)
    (filter (λ t, th_id t ≠ id) (theaters s))
    (filter (λ st, st_theaterId st ≠ id) (showtimes s)).

Definition deleteShowtime (id : string) (s : AppState) : AppState :=
  mkAppState (settings s) (movies s) (theaters s)
    (filter (λ st, st_id st ≠ id) (showtimes s)).

Definition addShowtime (newId movieId theaterId startLocal : string)
    (s : AppState) : AppState :=
  let st := mkShowtime newId movieId theaterId startLocal in
  mkAppState (settings s) (movies s) (theaters s) (showtimes s ++ [st]).

Definition resetAll (s : AppState) : AppState := buildDefaultState.

(** A [Partial<Movie>]: [None] is an absent key.  The key [rank] may be
    present with the value [undefined], which clears the rank. *)
Record MoviePatch := mkMoviePatch {
  patch_id : option string;
  patch_title : option string;
  patch_runtimeMins : option Z;
  patch_rank : option (option Z)
}.

(** [{ ...m, ...patch }] *)
Definition applyMoviePatch (m : Movie) (patch : MoviePatch) : Movie :=
  mkMovie (default (m_id m) (patch_id patch))
    (default (m_title m) (patch_title patch))
    (default (m_runtimeMins m) (patch_runtimeMins patch))
    (default (m_rank m) (patch_rank patch)).

Definition updateMovie (id : string) (patch : MoviePatch) (s : AppState)
    : AppState :=
  mkAppState (settings s)
    ((λ m, if String.eqb (m_id m) id then applyMoviePatch m patch else m)
       <$> movies s)
    (theaters s) (showtimes s).

Section Updaters.
Variable String_trim : string → string.

Definition addMovie (newId title : string) (runtimeMins : Z) (s : AppState)
    : AppState :=
  let m := mkMovie newId (String_trim title) (clampInt runtimeMins 1 600)
             None in
  mkAppState (settings s) (movies s ++ [m]) (theaters s) (showtimes s).

Definition addTheater (newId name : string) (s : AppState) : AppState :=
  let t := mkTheater newId (String_trim name) in
  mkAppState (settings s) (movies s) (theaters s ++ [t]) (showtimes s).

End Updaters.

(** ** Further notions *)

(** Lexicographic order on the triples of [itineraryScore]. *)
Definition scoreLe (x y : Z * Z * Z) : Prop :=
  x.1.1 < y.1.1
  ∨ (x.1.1 = y.1.1 ∧ (x.1.2 < y.1.2 ∨ (x.1.2 = y.1.2 ∧ x.2 <= y.2))).

(** Travel minutes along a chain: [T] for each consecutive pair at
    different theaters, as the result list displays them. *)
Fixpoint travelOf (T : Z) (l : list ScheduledShow) : Z :=
  match l with
  | a :: rest =>
    match rest with
    | b :: _ =>
      (if decide (theaterId a = theaterId b) then 0 else T) + travelOf T rest
    | [] => 0
    end
  | [] => 0
  end.

(** The same input with another maximum result count. *)
Definition withMaxResults (state : AppState) (K : Z) : AppState :=
  mkAppState
    (mkSettings (trailerLeewayMins (settings state))
       (travelMins (settings state)) K (beamWidth (settings state)))
    (movies state) (theaters state) (showtimes state).

(** Every showtime entry refers to a listed movie and a listed theater. *)
Definition wellReferenced (s : AppState) : Prop :=
  ∀ st, st ∈ showtimes s →
    (∃ m, m ∈ movies s ∧ m_id m = st_movieId st)
    ∧ (∃ t, t ∈ theaters s ∧ th_id t = st_theaterId st).

(** What a scheduled instance owes to the input: an entry that gave it
    its identities and start, and the listed movie that gave its end. *)
Definition scheduledFrom (parse : string → option Z) (state : AppState)
    (s : ScheduledShow) : Prop :=
  ∃ st m,
    st ∈ showtimes state ∧ m ∈ movies state
    ∧ showtimeId s = st_id st ∧ movieId s = st_movieId st
    ∧ theaterId s = st_theaterId st ∧ m_id m = st_movieId st
    ∧ parse (st_startLocal st) = Some (startMs s)
    ∧ endMs s = startMs s + m_runtimeMins m * 60000.

(** ** A date parser for examples

    The [datetime-local] format ["YYYY-MM-DDTHH:mm"] the application
    stores, read as UTC.  It instantiates [Date_getTime] in the concrete
    runs below; the theorems hold for every parser. *)

Definition digitOf (c : ascii) : option Z :=
  let n := Z.of_N (N_of_ascii c) in
  if (48 <=? n) && (n <=? 57) then Some (n - 48) else None.

Definition digits2 (a b : ascii) : option Z :=
  match digitOf a, digitOf b with
  | Some x, Some y => Some (10 * x + y)
  | _, _ => None
  end.

Definition daysFromCivil (y m d : Z) : Z :=
  let y' := if m <=? 2 then y - 1 else y in
  let era := y' / 400 in
  let yoe := y' - era * 400 in
  let doy := (153 * (if 2 <? m then m - 3 else m + 9) + 2) / 5 + d - 1 in
  let doe := yoe * 365 + yoe / 4 - yoe / 100 + doy in
  era * 146097 + doe - 719468.

Definition daysInMonth (y m : Z) : Z :=
  if m =? 2 then
    if ((y mod 4 =? 0) && negb (y mod 100 =? 0)) || (y mod 400 =? 0)
    then 29 else 28
  else if (m =? 4) || (m =? 6) || (m =? 9) || (m =? 11) then 30 else 31.

Definition isoLocalUtc (s : string) : option Z :=
  match String.list_ascii_of_string s with
  | [y1; y2; y3; y4; s1; m1; m2; s2; d1; d2; s3; h1; h2; s4; n1; n2] =>
    if Ascii.eqb s1 "-"%char && Ascii.eqb s2 "-"%char
       && Ascii.eqb s3 "T"%char && Ascii.eqb s4 ":"%char
    then
      match digits2 y1 y2, digits2 y3 y4, digits2 m1 m2, digits2 d1 d2,
            digits2 h1 h2, digits2 n1 n2 with
      | Some yh, Some yl, Some mo, Some d, Some h, Some mi =>
        let y := 100 * yh + yl in
        if (1 <=? mo) && (mo <=? 12) && (1 <=? d) && (d <=? daysInMonth y mo)
           && (h <=? 23) && (mi <=? 59)
        then Some (((daysFromCivil y mo d * 24 + h) * 60 + mi) * 60000)
        else None
      | _, _, _, _, _, _ => None
      end
    else None
  | _ => None
  end.

(** ** Concrete inputs *)

(** Two showings at different theaters: [overlapA] runs 10:00-11:40 and
    [overlapB] starts at 11:35, five minutes before [overlapA] ends. *)
Definition overlapA : ScheduledShow :=
  mkScheduledShow "s1" "m1" "t1" 1709287200000 1709293200000.
Definition overlapB : ScheduledShow :=
  mkScheduledShow "s2" "m2" "t2" 1709292900000 1709298900000.

(** Two ranked movies whose ranks lie beyond the clamp of
    [moviePreferencePoints], a top-ranked movie and an unranked one. *)
Definition movieRank10000 : Movie := mkMovie "m1" "Late Show" 100 (Some 10000).
Definition movieRank10001 : Movie := mkMovie "m2" "Later Show" 100 (Some 10001).
Definition movieRank1 : Movie := mkMovie "m3" "Must See" 100 (Some 1).
Definition movieRank2 : Movie := mkMovie "m4" "Runner Up" 100 (Some 2).
Definition movieUnranked : Movie := mkMovie "m5" "Filler" 100 None.

(** One movie, one theater, one showing, with maximum result count [K]
    and beam width [W]. *)
Definition soloState (K W : Z) : AppState :=
  mkAppState (mkSettings 20 15 K W)
    [mkMovie "m1" "Solo" 100 None]
    [mkTheater "t1" "Main"]
    [mkShowtime "s1" "m1" "t1" "2024-03-01T10:00"].

(** Seven showings of four equally ranked movies in one theater, with no
    leeway and no travel time.  "Alpha" runs 10:00-10:10; "Bravo" (10
    minutes) is shown at 10:10, 10:21 and 10:22; "Delta" (11 minutes) at
    10:10 and 10:33; "Mike" (13 minutes) at 10:20. *)
Definition detourState : AppState :=
  mkAppState (mkSettings 0 0 20 1)
    [mkMovie "A" "Alpha" 10 (Some 1); mkMovie "B" "Bravo" 10 (Some 1);
     mkMovie "D" "Delta" 11 (Some 1); mkMovie "M" "Mike" 13 (Some 1)]
    [mkTheater "t" "Main"]
    [mkShowtime "a" "A" "t" "2024-03-01T10:00";
     mkShowtime "b1" "B" "t" "2024-03-01T10:10";
     mkShowtime "d1" "D" "t" "2024-03-01T10:10";
     mkShowtime "m" "M" "t" "2024-03-01T10:20";
     mkShowtime "b2" "B" "t" "2024-03-01T10:21";
     mkShowtime "b3" "B" "t" "2024-03-01T10:22";
     mkShowtime "d2" "D" "t" "2024-03-01T10:33"].

(** Three ranked ten-minute movies shown back to back ("x", "a", "b") and
    an unranked long one whose showtime identity is "a>b", so the chains
    x, a>b and x, a, b share the dedupe key "x>a>b". *)
Definition collisionState : AppState :=
  mkAppState (mkSettings 0 0 20 1)
    [mkMovie "X" "Xray" 10 (Some 1); mkMovie "A" "Alpha" 10 (Some 1);
     mkMovie "B" "Bravo" 10 (Some 1); mkMovie "U" "Uniform" 30 None]
    [mkTheater "t" "Main"]
    [mkShowtime "x" "X" "t" "2024-03-01T10:00";
     mkShowtime "a" "A" "t" "2024-03-01T10:10";
     mkShowtime "a>b" "U" "t" "2024-03-01T10:10";
     mkShowtime "b" "B" "t" "2024-03-01T10:20"].

(** Two movies; the first is shown 10:00-11:40 at theater "t1", the
    second at the given theater and start. *)
Definition pairState (X T : Z) (theater2 start2 : string) : AppState :=
  mkAppState (mkSettings X T 20 200)
    [mkMovie "m1" "First" 100 None; mkMovie "m2" "Second" 90 None]
    [mkTheater "t1" "Main"; mkTheater "t2" "Annex"]
    [mkShowtime "s1" "m1" "t1" "2024-03-01T10:00";
     mkShowtime "s2" "m2" theater2 start2].

(** The identities and the score of each itinerary of a result. *)
Definition summary (r : option (list Itinerary))
    : option (list (list string * Z)) :=
  match r with
  | Some its =>
    Some (map (λ it, (map showtimeId (shows it), preferenceScore it)) its)
  | None => None
  end.

(** * Properties *)

(** ** Sorting *)

Section SortFacts.
Context {A : Type} (cmp : A → A → Z).

Lemma insertBy_Permutation (x : A) (l : list A) :
  insertBy cmp x l ≡ₚ x :: l.
Proof.
  induction l as [|y l IH]; simpl; [done|].
  destruct (cmp x y <=? 0); [done|].
  rewrite IH. apply Permutation_swap.
Qed.

Lemma sortBy_Permutation (l : list A) : sortBy cmp l ≡ₚ l.
Proof.
  induction l as [|x l IH]; simpl; [done|].
  rewrite insertBy_Permutation. by rewrite IH.
Qed.

Lemma sortBy_length (l : list A) : length (sortBy cmp l) = length l.
Proof. apply Permutation_length, sortBy_Permutation. Qed.

Lemma elem_of_sortBy (x : A) (l : list A) : x ∈ sortBy cmp l ↔ x ∈ l.
Proof. by rewrite sortBy_Permutation. Qed.

Lemma Forall_sortBy (P : A → Prop) (l : list A) :
  Forall P l → Forall P (sortBy cmp l).
Proof. by rewrite sortBy_Permutation. Qed.

(** Stability: elements that the comparator does not put apart keep
    their input order. *)
Lemma insertBy_filter (P : A → Prop) `{!∀ x, Decision (P x)}
    (x : A) (l : list A) :
  (∀ y z, P y → P z → cmp y z <= 0) →
  filter P (insertBy cmp x l) = filter P (x :: l).
Proof.
  intros HP. induction l as [|y l IH]; simpl; [done|].
  destruct (cmp x y <=? 0) eqn:Hxy; [done|].
  apply Z.leb_gt in Hxy.
  rewrite filter_cons, IH, !filter_cons.
  destruct (decide (P y)) as [Hy|Hy], (decide (P x)) as [Hx|Hx]; try done.
  specialize (HP x y Hx Hy). lia.
Qed.

Lemma sortBy_stable (P : A → Prop) `{!∀ x, Decision (P x)} (l : list A) :
  (∀ y z, P y → P z → cmp y z <= 0) →
  filter P (sortBy cmp l) = filter P l.
Proof.
  intros HP. induction l as [|x l IH]; simpl; [done|].
  rewrite insertBy_filter by done. by rewrite !filter_cons, IH.
Qed.

Section Ordered.
Hypothesis cmp_total : ∀ a b, 0 < cmp a b → cmp b a <= 0.
Hypothesis cmp_trans : ∀ a b c, cmp a b <= 0 → cmp b c <= 0 → cmp a c <= 0.

Lemma insertBy_StronglySorted (x : A) (l : list A) :
  StronglySorted (λ a b, cmp a b <= 0) l →
  StronglySorted (λ a b, cmp a b <= 0) (insertBy cmp x l).
Proof.
  induction 1 as [|y l Hl IH Hy]; simpl.
  - repeat constructor.
  - destruct (cmp x y <=? 0) eqn:Hxy.
    + apply Z.leb_le in Hxy. constructor; [by constructor|].
      constructor; [done|].
      eapply Forall_impl; [exact Hy|]. intros z Hz. eauto.
    + apply Z.leb_gt in Hxy. constructor; [done|].
      rewrite insertBy_Permutation. constructor; [|done].
      apply cmp_total. lia.
Qed.

Lemma sortBy_StronglySorted (l : list A) :
  StronglySorted (λ a b, cmp a b <= 0) (sortBy cmp l).
Proof.
  induction l as [|x l IH]; simpl; [constructor|].
  by apply insertBy_StronglySorted.
Qed.
(** The sorted stable arrangement of a list is unique, so every stable
    sorting algorithm returns what [sortBy] returns. *)
Lemma stable_sorted_unique (l1 l2 : list A) :
  StronglySorted (λ a b, cmp a b <= 0) l1 →
  StronglySorted (λ a b, cmp a b <= 0) l2 →
  (∀ x, filter (λ y, cmp x y <= 0 ∧ cmp y x <= 0) l1
        = filter (λ y, cmp x y <= 0 ∧ cmp y x <= 0) l2) →
  l1 = l2.
Proof.
  assert (Hrefl : ∀ a, cmp a a <= 0).
  { intros a. destruct (Z.le_gt_cases (cmp a a) 0) as [|H]; [done|].
    apply cmp_total. lia. }
  intros H1. revert l2.
  induction H1 as [|a l1 H1 IH Ha]; intros l2 H2 Hst.
  - destruct l2 as [|b l2]; [done|].
    specialize (Hst b). rewrite filter_cons_True in Hst by auto. done.
  - destruct H2 as [|b l2 H2 Hb].
    { specialize (Hst a). rewrite filter_cons_True in Hst by auto. done. }
    assert (a = b) as <-.
    { destruct (decide (cmp a b <= 0 ∧ cmp b a <= 0)) as [Hab|Hab].
      - specialize (Hst a).
        rewrite !filter_cons_True in Hst by auto. congruence.
      - destruct Hab. split.
        + assert (b ∈ a :: l1) as Hin.
          { eapply list_elem_of_filter. rewrite (Hst b).
            rewrite filter_cons_True by auto. left. }
          apply elem_of_cons in Hin as [->|Hin]; [done|].
          by apply (proj1 (Forall_forall _ _) Ha).
        + assert (a ∈ b :: l2) as Hin.
          { eapply list_elem_of_filter. rewrite <- (Hst a).
            rewrite filter_cons_True by auto. left. }
          apply elem_of_cons in Hin as [->|Hin]; [done|].
          by apply (proj1 (Forall_forall _ _) Hb). }
    f_equal. apply IH; [done|]. intros x. specialize (Hst x).
    rewrite !filter_cons in Hst. case_decide; congruence.
Qed.

Lemma sortBy_unique (l l' : list A) :
  StronglySorted (λ a b, cmp a b <= 0) l' →
  (∀ x, filter (λ y, cmp x y <= 0 ∧ cmp y x <= 0) l'
        = filter (λ y, cmp x y <= 0 ∧ cmp y x <= 0) l) →
  l' = sortBy cmp l.
Proof.
  intros Hsorted Hstable.
  apply stable_sorted_unique; [done|apply sortBy_StronglySorted|].
  intros x. rewrite Hstable. symmetry. apply sortBy_stable.
  intros y z [_ Hy] [Hz _]. eauto.
Qed.

End Ordered.
End SortFacts.

Lemma StronglySorted_mono {A : Type} (R S : A → A → Prop) (l : list A) :
  (∀ a b, R a b → S a b) → StronglySorted R l → StronglySorted S l.
Proof.
  intros HRS. induction 1 as [|x l Hl IH Hx]; constructor; [done|].
  eapply Forall_impl; [exact Hx|]. intros y. apply HRS.
Qed.

Lemma slice0_length_nonneg {A : Type} (l : list A) (e : Z) :
  0 <= e → Z.of_nat (length (slice0 l e)) = Z.min e (Z.of_nat (length l)).
Proof.
  intros He. unfold slice0. rewrite length_take.
  destruct (e <? 0) eqn:E; [apply Z.ltb_lt in E; lia|]. lia.
Qed.

Lemma slice0_all {A : Type} (l : list A) (e : Z) :
  Z.of_nat (length l) <= e → slice0 l e = l.
Proof.
  intros He. unfold slice0.
  destruct (e <? 0) eqn:E; [apply Z.ltb_lt in E; lia|].
  apply take_ge. lia.
Qed.

Lemma slice0_zero {A : Type} (l : list A) : slice0 l 0 = [].
Proof. unfold slice0. simpl. by rewrite Z.min_l by lia. Qed.

Lemma Forall_slice0 {A : Type} (P : A → Prop) (l : list A) (e : Z) :
  Forall P l → Forall P (slice0 l e).
Proof. unfold slice0. apply Forall_take. Qed.

Lemma elem_of_slice0 {A : Type} (x : A) (l : list A) (e : Z) :
  x ∈ slice0 l e → x ∈ l.
Proof. unfold slice0. apply subseteq_take. Qed.

(** ** The transition evaluator *)

(** What an accepted transition guarantees; used for every link of a
    chain. *)
Lemma canTransition_ok (a b : ScheduledShow) (X T : Z) :
  ok (canTransition a b X T) = true →
  startMs a <= startMs b ∧
  endMs a + (if decide (theaterId a = theaterId b) then 0 else T) * 60000
    <= startMs b + X * 60000.
Proof.
  unfold canTransition.
  destruct (startMs b <? startMs a) eqn:Hlt; simpl; [done|].
  apply Z.ltb_ge in Hlt. intros Hok%Z.leb_le. split; [done|].
  destruct (String.eqb_spec (theaterId a) (theaterId b));
    by case_decide.
Qed.

(** C3.  [canTransition] refuses a [b] that starts before [a] with no
    travel applied; otherwise the travel applied is [0] within one theater
    and [T] across theaters, and the transition is accepted exactly when
    [a.end + travel] (in milliseconds) is at most [b.start + X]. *)
Theorem canTransition_spec (a b : ScheduledShow) (X T : Z) :
  (startMs b < startMs a →
     canTransition a b X T = mkTransition false 0) ∧
  (startMs a <= startMs b →
     travelAppliedMins (canTransition a b X T)
       = (if decide (theaterId a = theaterId b) then 0 else T) ∧
     (ok (canTransition a b X T) = true ↔
        endMs a + travelAppliedMins (canTransition a b X T) * 60000
          <= startMs b + X * 60000)).
Proof.
  unfold canTransition. split; intros H.
  - apply Z.ltb_lt in H. by rewrite H.
  - apply Z.ltb_ge in H. rewrite H. simpl. split.
    + destruct (String.eqb_spec (theaterId a) (theaterId b));
        by case_decide.
    + apply Z.leb_le.
Qed.

(** The evaluator on [overlapA] and [overlapB], in both orders. *)
Lemma canTransition_spec_witness :
  startMs overlapA < startMs overlapB ∧
  canTransition overlapB overlapA 20 15 = mkTransition false 0 ∧
  startMs overlapA <= startMs overlapB ∧
  travelAppliedMins (canTransition overlapA overlapB 20 15) = 15 ∧
  ok (canTransition overlapA overlapB 20 15) = true.
Proof.
  pose proof (canTransition_spec overlapB overlapA 20 15) as [Hback _].
  pose proof (canTransition_spec overlapA overlapB 20 15) as [_ Hfwd].
  assert (Hlt : startMs overlapA < startMs overlapB) by (vm_compute; done).
  assert (Hle : startMs overlapA <= startMs overlapB)
    by (vm_compute; discriminate).
  split; [exact Hlt|]. split; [exact (Hback Hlt)|]. split; [exact Hle|].
  destruct (Hfwd Hle) as [Htr Hiff]. split; [exact Htr|].
  apply Hiff. vm_compute. discriminate.
Defined.

(** C9.  Two showings that overlap in wall-clock time can still be judged
    feasible: the guard of [canTransition] compares the two start
    instants only.  Here [b] starts five minutes before [a] ends, at
    another theater, under the default settings X = 20 and T = 15. *)
Theorem canTransition_accepts_overlap :
  ∃ (a b : ScheduledShow) (X T : Z),
    startMs a <= startMs b ∧ startMs b < endMs a ∧
    ok (canTransition a b X T) = true.
Proof.
  exists overlapA, overlapB, 20, 15. vm_compute. repeat split; congruence.
Qed.

(** ** Preference points *)

Lemma sumPoints_unranked (ms : list Movie) :
  Forall (λ u, m_rank u = None) ms → sumPoints ms = 0.
Proof.
  induction 1 as [|u ms Hu _ IH]; [done|].
  unfold sumPoints in *. simpl. unfold moviePreferencePoints at 1.
  by rewrite Hu, IH.
Qed.

Lemma moviePreferencePoints_ranked (m : Movie) (r : Z) :
  m_rank m = Some r → moviePreferencePoints m = 100000 - clampInt r 1 9999.
Proof. unfold moviePreferencePoints. by intros ->. Qed.

Lemma cmpItinerary_score (a b : Itinerary) :
  preferenceScore b < preferenceScore a → cmpItinerary a b < 0.
Proof.
  intros H. unfold cmpItinerary.
  destruct (preferenceScore b =? preferenceScore a) eqn:E; simpl; lia.
Qed.

(** C5, as the code has it.  An unranked movie contributes 0; a movie of
    rank [r] contributes [100000 - clampInt r 1 9999], which is
    [100000 - r] for ranks 1 to 9999.  Every ranked movie contributes more
    than any collection of unranked movies together, so an itinerary
    scored by one ranked movie sorts before every all-unranked chain.  Of
    two ranked movies the lower rank number never contributes less, and
    contributes strictly more unless the clamp maps both ranks to the same
    bound. *)
Theorem moviePreferencePoints_dominance :
  (∀ m, m_rank m = None → moviePreferencePoints m = 0) ∧
  (∀ m r, m_rank m = Some r →
     moviePreferencePoints m = 100000 - clampInt r 1 9999 ∧
     (1 <= r <= 9999 → moviePreferencePoints m = 100000 - r)) ∧
  (∀ m r unranked, m_rank m = Some r →
     Forall (λ u, m_rank u = None) unranked →
     sumPoints unranked < moviePreferencePoints m ∧
     ∀ a b, preferenceScore a = moviePreferencePoints m →
            preferenceScore b = sumPoints unranked →
            cmpItinerary a b < 0) ∧
  (∀ m1 m2 r1 r2, m_rank m1 = Some r1 → m_rank m2 = Some r2 → r1 < r2 →
     moviePreferencePoints m2 <= moviePreferencePoints m1 ∧
     (r1 < 9999 → 1 < r2 →
      moviePreferencePoints m2 < moviePreferencePoints m1)).
Proof.
  split; [|split; [|split]].
  - intros m H. unfold moviePreferencePoints. by rewrite H.
  - intros m r H. rewrite (moviePreferencePoints_ranked m r H).
    unfold clampInt. split; [done|]. lia.
  - intros m r unranked H Hu.
    rewrite (moviePreferencePoints_ranked m r H), (sumPoints_unranked _ Hu).
    assert (0 < 100000 - clampInt r 1 9999) by (unfold clampInt; lia).
    split; [done|]. intros a b Ha Hb.
    apply cmpItinerary_score. by rewrite Ha, Hb.
  - intros m1 m2 r1 r2 H1 H2 Hlt.
    rewrite (moviePreferencePoints_ranked m1 r1 H1),
            (moviePreferencePoints_ranked m2 r2 H2).
    unfold clampInt. lia.
Qed.

Lemma moviePreferencePoints_dominance_witness :
  moviePreferencePoints movieUnranked = 0 ∧
  moviePreferencePoints movieRank1 = 99999 ∧
  sumPoints [movieUnranked; movieUnranked; movieUnranked]
    < moviePreferencePoints movieRank1 ∧
  moviePreferencePoints movieRank2 < moviePreferencePoints movieRank1.
Proof.
  destruct moviePreferencePoints_dominance as (H0 & Hr & Hd & Hm).
  split; [exact (H0 movieUnranked eq_refl)|].
  split.
  { apply (proj2 (Hr movieRank1 1 eq_refl)). lia. }
  split.
  { apply (proj1 (Hd movieRank1 1 [movieUnranked; movieUnranked; movieUnranked]
                    eq_refl ltac:(repeat constructor))). }
  apply (proj2 (Hm movieRank1 movieRank2 1 2 eq_refl eq_refl ltac:(lia)));
    lia.
Defined.

(** C5 as stated fails beyond rank 9999: ranks 10000 and 10001 are
    distinct, yet both movies receive the same contribution, and it is not
    the constant minus the rank. *)
Lemma moviePreferencePoints_clamp_counterexample :
  m_rank movieRank10000 = Some 10000 ∧
  m_rank movieRank10001 = Some 10001 ∧
  moviePreferencePoints movieRank10000 = moviePreferencePoints movieRank10001 ∧
  moviePreferencePoints movieRank10000 ≠ 100000 - 10000.
Proof. vm_compute. repeat split; congruence. Qed.

(** ** The schedule builder *)

Lemma movieMap_foldl (ms : list Movie) (acc : gmap string Movie)
    (k : string) :
  foldl (λ acc m, <[m_id m := m]> acc) acc ms !! k
  = match resolveMovie ms k with
    | Some m => Some m
    | None => acc !! k
    end.
Proof.
  unfold resolveMovie. revert acc.
  induction ms as [|m ms IH]; intros acc; simpl; [done|].
  rewrite IH, filter_cons.
  destruct (decide (m_id m = k)) as [<-|Hne].
  - rewrite last_cons.
    destruct (last (filter _ ms)); [done|]. by rewrite lookup_insert_eq.
  - destruct (last (filter _ ms)); [done|]. by rewrite lookup_insert_ne.
Qed.

Lemma movieMap_lookup (ms : list Movie) (k : string) :
  movieMap ms !! k = resolveMovie ms k.
Proof.
  unfold movieMap. rewrite movieMap_foldl, lookup_empty.
  by destruct (resolveMovie ms k).
Qed.

Lemma resolveMovie_None (ms : list Movie) (k : string) :
  resolveMovie ms k = None ↔ ∀ m, m ∈ ms → m_id m ≠ k.
Proof.
  unfold resolveMovie. rewrite last_None. split.
  - intros Hnil m Hm Hk.
    exact (filter_nil_not_elem_of (λ m, m_id m = k) ms m Hnil Hk Hm).
  - induction ms as [|m ms IH]; intros Hall; [done|].
    rewrite filter_cons_False by (apply Hall; left).
    apply IH. intros m' Hm'. apply Hall. by right.
Qed.

Lemma scheduleShow_scheduledInstance (parse : string → option Z)
    (ms : list Movie) (st : Showtime) :
  scheduleShow parse (movieMap ms) st = scheduledInstance parse ms st.
Proof.
  unfold scheduleShow, scheduledInstance, parseLocalDateTimeToMs.
  rewrite movieMap_lookup.
  destruct (resolveMovie ms (st_movieId st)); [|done].
  by destruct (parse (st_startLocal st)).
Qed.

Lemma omap_scheduleShow (parse : string → option Z) (ms : list Movie)
    (l : list Showtime) :
  omap (scheduleShow parse (movieMap ms)) l
  = omap (scheduledInstance parse ms) l.
Proof.
  induction l as [|st l IH]; simpl; [done|].
  rewrite scheduleShow_scheduledInstance.
  destruct (scheduledInstance parse ms st); [f_equal|]; exact IH.
Qed.

Lemma cmpStart_total (a b : ScheduledShow) :
  0 < cmpStart a b → cmpStart b a <= 0.
Proof. unfold cmpStart. lia. Qed.

Lemma cmpStart_trans (a b c : ScheduledShow) :
  cmpStart a b <= 0 → cmpStart b c <= 0 → cmpStart a c <= 0.
Proof. unfold cmpStart. lia. Qed.

Lemma buildScheduledShows_Permutation (parse : string → option Z)
    (state : AppState) :
  buildScheduledShows parse state
  ≡ₚ omap (scheduleShow parse (movieMap (movies state))) (showtimes state).
Proof. unfold buildScheduledShows. apply sortBy_Permutation. Qed.

(** C8.  [buildScheduledShows] keeps exactly the entries whose movie
    resolves and whose start parses, gives each survivor the end instant
    start + runtime minutes, and returns the survivors in ascending start
    order, equal starts in input order.  It is a total function: no input
    makes it fail. *)
Theorem buildScheduledShows_spec (parse : string → option Z)
    (state : AppState) :
  let out := buildScheduledShows parse state in
  let kept := omap (scheduledInstance parse (movies state))
                   (showtimes state) in
  (∀ st, scheduledInstance parse (movies state) st = None ↔
         (∀ m, m ∈ movies state → m_id m ≠ st_movieId st)
         ∨ parse (st_startLocal st) = None) ∧
  out ≡ₚ kept ∧
  StronglySorted (λ a b, startMs a <= startMs b) out ∧
  (∀ t, filter (λ s, startMs s = t) out = filter (λ s, startMs s = t) kept).
Proof.
  intros out kept.
  assert (Hkept : omap (scheduleShow parse (movieMap (movies state)))
                    (showtimes state) = kept).
  { apply omap_scheduleShow. }
  split; [|split; [|split]].
  - intros st. unfold scheduledInstance.
    destruct (resolveMovie (movies state) (st_movieId st)) eqn:Hm.
    + assert (¬ ∀ m, m ∈ movies state → m_id m ≠ st_movieId st) as Hn.
      { rewrite <- resolveMovie_None. congruence. }
      destruct (parse (st_startLocal st)).
      * split; [done|]. intros [Hall|Hp]; [by destruct Hn|done].
      * split; [by right|done].
    + pose proof (proj1 (resolveMovie_None _ _) Hm). split; [by left|done].
  - rewrite <- Hkept. apply buildScheduledShows_Permutation.
  - unfold out, buildScheduledShows.
    eapply StronglySorted_mono;
      [|apply sortBy_StronglySorted; [apply cmpStart_total|apply cmpStart_trans]].
    unfold cmpStart. intros a b. simpl. lia.
  - intros t. rewrite <- Hkept. unfold out, buildScheduledShows.
    apply sortBy_stable. unfold cmpStart. intros y z -> ->. lia.
Qed.

(** ** The feasibility graph *)

Lemma scanRow_spec (X T : Z) (a : ScheduledShow) (rest : list ScheduledShow)
    (j0 k j : nat) :
  (scanRow X T a j0 rest).1 !! k = Some j →
  ∃ b, (j0 ≤ j)%nat ∧ rest !! (j - j0)%nat = Some b
       ∧ ok (canTransition a b X T) = true
       ∧ is_Some ((scanRow X T a j0 rest).2 !! k).
Proof.
  revert j0 k. induction rest as [|b rest IH]; intros j0 k; simpl; [done|].
  destruct (ok (canTransition a b X T)) eqn:Hok.
  - destruct k as [|k]; simpl.
    + intros [= <-]. exists b. rewrite Nat.sub_diag. eauto.
    + intros Hk. destruct (IH _ _ Hk) as (b' & Hle & Hb' & Hok' & Hc).
      exists b'. split; [lia|]. split; [|done].
      replace (j - j0)%nat with (S (j - S j0)) by lia. done.
  - intros Hk. destruct (IH _ _ Hk) as (b' & Hle & Hb' & Hok' & Hc).
    exists b'. split; [lia|]. split; [|done].
    replace (j - j0)%nat with (S (j - S j0)) by lia. done.
Qed.

Lemma adjacency_ok (X T : Z) (scheduled : list ScheduledShow) :
  graph_ok X T scheduled (adjacency X T scheduled).*1
           (adjacency X T scheduled).*2.
Proof.
  unfold adjacency. split.
  - by rewrite length_fmap, length_imap.
  - by rewrite length_fmap, length_imap.
  - intros i a candidates costs k j Ha Hn Hc Hk.
    rewrite list_lookup_fmap, list_lookup_imap, Ha in Hn.
    rewrite list_lookup_fmap, list_lookup_imap, Ha in Hc.
    simpl in Hn, Hc. injection Hn as <-. injection Hc as <-.
    destruct (scanRow_spec _ _ _ _ _ _ _ Hk) as (b & Hle & Hb & Hok & Hcost).
    exists b. split; [|done].
    rewrite lookup_drop in Hb. rewrite <- Hb. f_equal. lia.
Qed.

(** ** Invariants of the beam search *)

Lemma chainPoints_snoc (movieById : gmap string Movie)
    (l : list ScheduledShow) (s : ScheduledShow) :
  chainPoints movieById (l ++ [s])
  = chainPoints movieById l + showPoints movieById s.
Proof.
  unfold chainPoints. induction l as [|x l IH]; simpl; [lia|].
  rewrite IH. lia.
Qed.

Lemma linked_snoc (X T : Z) (l : list ScheduledShow) (a b : ScheduledShow) :
  linked X T l → last l = Some a → feasible X T a b →
  linked X T (l ++ [b]).
Proof.
  intros Hl Ha Hab i x y Hx Hy.
  rewrite last_lookup in Ha.
  apply lookup_snoc_Some in Hy as [[Hlt Hy]|[Hlen ->]].
  - rewrite lookup_app_l in Hx by lia. by eapply Hl.
  - rewrite lookup_app_l in Hx by lia.
    rewrite <- Hlen in Ha. simpl in Ha. congruence.
Qed.

Lemma prefix_nonempty {A : Type} (l1 l2 : list A) :
  l1 `prefix_of` l2 → l1 ≠ [] → l2 ≠ [].
Proof. intros [k ->] H. by destruct l1. Qed.

Section SearchFacts.
Variables (X T : Z) (movieById : gmap string Movie).
Variable scheduled : list ScheduledShow.

Local Abbreviation partial_ok' := (partial_ok X T movieById scheduled).
Local Abbreviation itinerary_ok' := (itinerary_ok X T movieById scheduled).
Local Abbreviation finished_ok' := (finished_ok X T movieById scheduled).

Lemma initial_ok : Forall partial_ok' (initial movieById scheduled).
Proof.
  apply Forall_forall. intros p Hp. unfold initial in Hp.
  apply elem_of_lookup_imap in Hp as (idx & s & -> & Hs).
  split; simpl.
  - split.
    + done.
    + intros i a b Ha Hb. by destruct i.
    + apply NoDup_singleton.
    + apply NoDup_singleton.
    + constructor; [|done]. by eapply list_elem_of_lookup_2.
  - done.
  - intros x. by rewrite elem_of_singleton, list_elem_of_singleton.
  - intros x. by rewrite elem_of_singleton, list_elem_of_singleton.
  - unfold chainPoints. simpl. lia.
Qed.

Lemma expandFrom_ok (p : Partial) (a : ScheduledShow) (costs : list Z)
    (candidates : list nat) (k : nat) :
  partial_ok' p → last (p_shows p) = Some a →
  (∀ k' j, candidates !! k' = Some j →
     ∃ b, scheduled !! j = Some b ∧ ok (canTransition a b X T) = true
          ∧ is_Some (costs !! (k + k')%nat)) →
  ∃ out, expandFrom movieById scheduled p costs k candidates = Some out
         ∧ Forall partial_ok' out.
Proof.
  intros Hp Ha. revert k.
  induction candidates as [|j cands IH]; intros k Hc; simpl; [eauto|].
  destruct (Hc 0%nat j eq_refl) as (b & Hb & Hok & [c Hcost]).
  rewrite Nat.add_0_r in Hcost. rewrite Hb.
  destruct (IH (S k)) as (rest & Hrest & Hall).
  { intros k' j' Hj'. specialize (Hc (S k') j' Hj').
    by rewrite Nat.add_succ_r in Hc. }
  rewrite Hrest.
  destruct (decide (showtimeId b ∈ usedShowtimeIds p)) as [|Hst]; [eauto|].
  destruct (decide (movieId b ∈ usedMovieIds p)) as [|Hmv]; [eauto|].
  rewrite Hcost. eexists; split; [done|]. constructor; [|done].
  destruct Hp as [[Hne Hl Hm Hs Hin] Hlast Hmovies Hshowtimes Hscore].
  split; simpl.
  - split.
    + by destruct (p_shows p).
    + eapply linked_snoc; [done..|]. by apply canTransition_ok.
    + rewrite fmap_app. apply NoDup_app. split; [done|].
      split; [|apply NoDup_singleton].
      intros x Hx Hx'. apply list_elem_of_singleton in Hx' as ->.
      by apply Hmv, Hmovies.
    + rewrite fmap_app. apply NoDup_app. split; [done|].
      split; [|apply NoDup_singleton].
      intros x Hx Hx'. apply list_elem_of_singleton in Hx' as ->.
      by apply Hst, Hshowtimes.
    + apply Forall_app. split; [done|]. constructor; [|done].
      by eapply list_elem_of_lookup_2.
  - by rewrite last_snoc.
  - intros x. rewrite fmap_app, elem_of_app, elem_of_union, Hmovies.
    rewrite elem_of_singleton. simpl. by rewrite list_elem_of_singleton.
  - intros x. rewrite fmap_app, elem_of_app, elem_of_union, Hshowtimes.
    rewrite elem_of_singleton. simpl. by rewrite list_elem_of_singleton.
  - by rewrite chainPoints_snoc, Hscore.
Qed.

Lemma expand_ok (nexts : list (list nat)) (travelCost : list (list Z))
    (p : Partial) :
  graph_ok X T scheduled nexts travelCost → partial_ok' p →
  ∃ out, expand movieById scheduled nexts travelCost p = Some out
         ∧ Forall partial_ok' out.
Proof.
  intros [Hn Hc He] Hp. unfold expand.
  destruct (last (p_shows p)) as [a|] eqn:Ha.
  2:{ apply last_None in Ha. by destruct Hp as [[Hne _ _ _ _] _ _ _ _]. }
  pose proof (partial_last _ _ _ _ _ Hp) as Hlast. rewrite Ha in Hlast.
  pose proof (lookup_lt_Some _ _ _ Hlast) as Hlt.
  destruct (lookup_lt_is_Some_2 nexts (lastIdx p)) as [cands Hcands]; [lia|].
  destruct (lookup_lt_is_Some_2 travelCost (lastIdx p)) as [costs Hcosts];
    [lia|].
  rewrite Hcands, Hcosts.
  apply (expandFrom_ok p a); [done..|].
  intros k' j Hj. simpl. eapply He; eauto.
Qed.

Lemma expandAll_ok (nexts : list (list nat)) (travelCost : list (list Z))
    (beam : list Partial) :
  graph_ok X T scheduled nexts travelCost → Forall partial_ok' beam →
  ∃ out, expandAll movieById scheduled nexts travelCost beam = Some out
         ∧ Forall partial_ok' out.
Proof.
  intros Hg. induction 1 as [|p beam Hp _ IH]; simpl; [eauto|].
  destruct (expand_ok _ _ _ Hg Hp) as (here & -> & Hhere).
  destruct IH as (rest & -> & Hrest).
  eexists; split; [done|]. by apply Forall_app.
Qed.

Lemma finalize_ok (p : Partial) (acc : list Itinerary * gset string) :
  partial_ok' p → finished_ok' acc →
  ∃ acc', finalize p acc = Some acc' ∧ finished_ok' acc'
          ∧ acc.1 `prefix_of` acc'.1 ∧ acc'.1 ≠ []
          ∧ (∀ k, k ∈ acc'.2 ↔ k ∈ acc.2 ∨ k = chainKey (p_shows p))
          ∧ (∀ it, it ∈ acc'.1 → it ∈ acc.1 ∨ shows it = p_shows p).
Proof.
  intros Hp [Hits Hdist Hseen]. unfold finalize.
  destruct (last (p_shows p)) as [a|] eqn:Ha.
  2:{ apply last_None in Ha. by destruct Hp as [[Hne _ _ _ _] _ _ _ _]. }
  simpl.
  destruct (decide (chainKey (p_shows p) ∈ acc.2)) as [Hin|Hnin].
  - eexists; split; [done|]. split; [done|]. split; [done|].
    split; [|split].
    + apply Hseen in Hin. intros Hnil. rewrite Hnil in Hin.
      by apply not_elem_of_nil in Hin.
    + intros k. split; [by left|]. by intros [?| ->].
    + intros it Hit. by left.
  - eexists; split; [done|]. simpl. split; [split; simpl|].
    + apply Forall_app. split; [done|]. constructor; [|done].
      split; simpl.
      * apply Hp.
      * apply Hp.
      * done.
      * unfold lastEndMs. by rewrite Ha.
    + rewrite fmap_app. apply NoDup_app. split; [done|].
      split; [|apply NoDup_singleton].
      intros k Hk Hk'. apply list_elem_of_singleton in Hk'.
      unfold itineraryKey in Hk'. simpl in Hk'. subst k.
      by apply Hnin, Hseen.
    + intros k. rewrite fmap_app, elem_of_app, elem_of_union, Hseen.
      rewrite elem_of_singleton. simpl. rewrite list_elem_of_singleton.
      unfold itineraryKey. simpl. tauto.
    + split; [by apply prefix_app_r|]. split; [by destruct acc.1|].
      split.
      * intros k. rewrite elem_of_union, elem_of_singleton. tauto.
      * intros it Hit. apply elem_of_app in Hit as [Hit|Hit]; [by left|].
        apply list_elem_of_singleton in Hit as ->. by right.
Qed.

Lemma finalizeAll_ok (beam : list Partial)
    (acc : list Itinerary * gset string) :
  Forall partial_ok' beam → finished_ok' acc →
  ∃ acc', finalizeAll beam acc = Some acc' ∧ finished_ok' acc'
          ∧ acc.1 `prefix_of` acc'.1 ∧ (beam ≠ [] → acc'.1 ≠ [])
          ∧ (∀ k, k ∈ acc'.2 ↔
                  k ∈ acc.2 ∨ k ∈ (λ p, chainKey (p_shows p)) <$> beam)
          ∧ (∀ it, it ∈ acc'.1 →
                   it ∈ acc.1 ∨ ∃ p, p ∈ beam ∧ shows it = p_shows p).
Proof.
  intros Hbeam. revert acc.
  induction Hbeam as [|p beam Hp _ IH]; intros acc Hacc; simpl.
  - eexists; split; [done|]. split; [done|]. split; [done|].
    split; [done|]. split.
    + intros k. split; [by left|]. intros [?|Hk]; [done|].
      by apply not_elem_of_nil in Hk.
    + intros it Hit. by left.
  - destruct (finalize_ok p acc Hp Hacc)
      as (acc1 & -> & Hacc1 & Hpre1 & Hne1 & Hseen1 & Hfrom1).
    destruct (IH acc1 Hacc1)
      as (acc2 & -> & Hacc2 & Hpre2 & _ & Hseen2 & Hfrom2).
    eexists; split; [done|]. split; [done|].
    split; [by etrans|]. split; [|split].
    + intros _. by eapply prefix_nonempty.
    + intros k. rewrite Hseen2, Hseen1, elem_of_cons. tauto.
    + intros it Hit. destruct (Hfrom2 it Hit) as [Hit1|(q & Hq & Hsh)].
      * destruct (Hfrom1 it Hit1) as [?|Hsh]; [by left|].
        right. exists p. split; [left|done].
      * right. exists q. split; [by right|done].
Qed.

Lemma search_ok (nexts : list (list nat)) (travelCost : list (list Z))
    (W : Z) (steps : nat) (beam : list Partial)
    (acc : list Itinerary * gset string) :
  graph_ok X T scheduled nexts travelCost →
  Forall partial_ok' beam → finished_ok' acc →
  ∃ acc', search movieById scheduled nexts travelCost W steps beam acc
          = Some acc'
          ∧ finished_ok' acc' ∧ acc.1 `prefix_of` acc'.1
          ∧ (steps ≠ 0%nat → beam ≠ [] → acc'.1 ≠ []).
Proof.
  intros Hg. revert beam acc.
  induction steps as [|steps IH]; intros beam acc Hbeam Hacc; simpl.
  { eexists; split; [done|]. split; [done|]. split; done. }
  destruct (finalizeAll_ok beam acc Hbeam Hacc)
    as (acc1 & -> & Hacc1 & Hpre1 & Hne1 & _ & _).
  destruct (expandAll_ok nexts travelCost beam Hg Hbeam)
    as (expanded & -> & Hexp).
  destruct (length expanded =? 0)%nat.
  { eexists; split; [done|]. split; [done|]. split; [done|]. auto. }
  destruct (IH (slice0 (sortBy cmpPartial expanded) W) acc1)
    as (acc2 & -> & Hacc2 & Hpre2 & _); [|done|].
  { by apply Forall_slice0, Forall_sortBy. }
  eexists; split; [done|]. split; [done|]. split; [by etrans|].
  intros _ Hb. eapply prefix_nonempty; [done|]. by apply Hne1.
Qed.

Lemma search_nil (nexts : list (list nat)) (travelCost : list (list Z))
    (W : Z) (steps : nat) (acc : list Itinerary * gset string) :
  search movieById scheduled nexts travelCost W steps [] acc = Some acc.
Proof. by destruct steps. Qed.

(** With beam width 0 the search ends after the first layer. *)
Lemma search_zero_width (nexts : list (list nat))
    (travelCost : list (list Z)) (steps : nat) (beam : list Partial)
    (acc acc' : list Itinerary * gset string) :
  graph_ok X T scheduled nexts travelCost →
  Forall partial_ok' beam → finished_ok' acc →
  search movieById scheduled nexts travelCost 0 steps beam acc = Some acc' →
  ∀ it, it ∈ acc'.1 → it ∈ acc.1 ∨ ∃ p, p ∈ beam ∧ shows it = p_shows p.
Proof.
  intros Hg Hbeam Hacc. destruct steps as [|steps]; simpl.
  { intros [= <-] it Hit. by left. }
  destruct (finalizeAll_ok beam acc Hbeam Hacc)
    as (acc1 & -> & _ & _ & _ & _ & Hfrom).
  destruct (expandAll_ok nexts travelCost beam Hg Hbeam)
    as (expanded & -> & _).
  rewrite slice0_zero, search_nil.
  destruct (length expanded =? 0)%nat; by intros [= <-].
Qed.

End SearchFacts.

(** ** The engine as a whole *)

Lemma linked_cons_inv (X T : Z) (a : ScheduledShow)
    (l : list ScheduledShow) :
  linked X T (a :: l) → linked X T l.
Proof. intros H i x y Hx Hy. by apply (H (S i) x y). Qed.

Lemma linked_StronglySorted (X T : Z) (l : list ScheduledShow) :
  linked X T l → StronglySorted (λ a b, startMs a <= startMs b) l.
Proof.
  intros Hl. apply Sorted_StronglySorted.
  { intros a b c. lia. }
  induction l as [|a l IH]; [constructor|].
  constructor; [by eapply IH, linked_cons_inv|].
  destruct l as [|b l]; constructor.
  by destruct (Hl 0%nat a b eq_refl eq_refl).
Qed.

Lemma cmpItinerary_ranksBefore (a b : Itinerary) :
  cmpItinerary a b <= 0 ↔ ranksBefore a b.
Proof.
  unfold cmpItinerary, ranksBefore.
  destruct (preferenceScore b =? preferenceScore a) eqn:E1; simpl;
    [apply Z.eqb_eq in E1|apply Z.eqb_neq in E1; lia].
  destruct (movieCount b =? movieCount a) eqn:E2; simpl;
    [apply Z.eqb_eq in E2|apply Z.eqb_neq in E2]; lia.
Qed.

Lemma ranksBefore_total (a b : Itinerary) :
  ¬ ranksBefore a b → ranksBefore b a.
Proof. unfold ranksBefore. lia. Qed.

Lemma ranksBefore_trans (a b c : Itinerary) :
  ranksBefore a b → ranksBefore b c → ranksBefore a c.
Proof. unfold ranksBefore. lia. Qed.

Lemma sortItineraries_sorted (its : list Itinerary) :
  StronglySorted ranksBefore (sortItineraries its).
Proof.
  unfold sortItineraries.
  eapply StronglySorted_mono;
    [|apply (sortBy_StronglySorted cmpItinerary)].
  - intros a b. apply cmpItinerary_ranksBefore.
  - intros a b Hab. apply cmpItinerary_ranksBefore, ranksBefore_total.
    rewrite <- cmpItinerary_ranksBefore. lia.
  - intros a b c. rewrite !cmpItinerary_ranksBefore.
    apply ranksBefore_trans.
Qed.

Lemma StronglySorted_take {A : Type} (R : A → A → Prop) (l : list A)
    (k : nat) :
  StronglySorted R l → StronglySorted R (take k l).
Proof.
  intros Hl. revert k. induction Hl as [|x l Hl IH Hx]; intros [|k]; simpl;
    try constructor; [apply IH|]. by apply Forall_take.
Qed.

Section EngineFacts.
Variable parse : string → option Z.
Variable state : AppState.

Local Abbreviation X := (trailerLeewayMins (settings state)).
Local Abbreviation T := (travelMins (settings state)).
Local Abbreviation K := (maxResults (settings state)).
Local Abbreviation W := (beamWidth (settings state)).
Local Abbreviation scheduled := (buildScheduledShows parse state).
Local Abbreviation movieById := (movieMap (movies state)).

Lemma finishedItineraries_ok :
  ∃ finished,
    finishedItineraries parse state = Some finished
    ∧ Forall (itinerary_ok X T movieById scheduled) finished
    ∧ NoDup (itineraryKey <$> finished)
    ∧ (scheduled ≠ [] → finished ≠ []).
Proof.
  unfold finishedItineraries.
  destruct (search_ok X T movieById scheduled
              (adjacency X T scheduled).*1 (adjacency X T scheduled).*2
              W (length scheduled) (initial movieById scheduled) ([], ∅))
    as (acc & -> & [Hits Hdist _] & _ & Hne).
  - apply adjacency_ok.
  - apply initial_ok.
  - split; simpl; [constructor|constructor|].
    intros k. by rewrite elem_of_empty, elem_of_nil.
  - eexists; split; [done|]. split; [done|]. split; [done|].
    intros Hsched. apply Hne.
    + by destruct scheduled.
    + unfold initial. intros Hnil.
      apply (f_equal length) in Hnil. rewrite length_imap in Hnil.
      by destruct scheduled.
Qed.

Lemma generateItineraries_eq :
  ∃ finished,
    finishedItineraries parse state = Some finished
    ∧ Forall (itinerary_ok X T movieById scheduled) finished
    ∧ NoDup (itineraryKey <$> finished)
    ∧ (scheduled ≠ [] → finished ≠ [])
    ∧ (scheduled = [] → finished = [])
    ∧ generateItineraries parse state
      = Some (slice0 (sortItineraries finished) (clampInt K 1 200)).
Proof.
  destruct finishedItineraries_ok as (finished & Hfin & Hok & Hdist & Hne).
  exists finished. split; [done|]. split; [done|]. split; [done|].
  split; [done|].
  assert (Hnil : scheduled = [] → finished = []).
  { intros Hs. unfold finishedItineraries in Hfin. rewrite Hs in Hfin.
    simpl in Hfin. by injection Hfin as <-. }
  split; [done|].
  unfold generateItineraries. rewrite Hfin.
  destruct scheduled eqn:Hs; simpl; [|done].
  rewrite (Hnil eq_refl). unfold slice0. simpl. by rewrite take_nil.
Qed.

Lemma generateItineraries_total :
  is_Some (generateItineraries parse state).
Proof.
  destruct generateItineraries_eq as (finished & _ & _ & _ & _ & _ & ->).
  by eexists.
Qed.

End EngineFacts.

(** C1.  [generateItineraries] returns, and in every itinerary it returns
    the shows are in non-decreasing start order, no movie occurs twice and
    no showtime occurs twice. *)
Theorem generateItineraries_sorted_distinct (parse : string → option Z)
    (state : AppState) :
  ∃ its,
    generateItineraries parse state = Some its
    ∧ Forall (λ it,
        StronglySorted (λ a b, startMs a <= startMs b) (shows it)
        ∧ NoDup (movieId <$> shows it)
        ∧ NoDup (showtimeId <$> shows it)) its.
Proof.
  destruct (generateItineraries_eq parse state)
    as (finished & _ & Hok & _ & _ & _ & ->).
  eexists; split; [done|].
  apply Forall_slice0, Forall_sortBy.
  eapply Forall_impl; [exact Hok|].
  intros it [[_ Hl Hm Hs _] _ _ _].
  split; [by eapply linked_StronglySorted|done].
Qed.

(** C2.  In every itinerary [generateItineraries] returns, each
    consecutive pair [(a, b)] obeys the feasibility rule under the
    settings of the run: [b] does not start before [a], and [a.end] plus
    the travel applied (0 within one theater, else [T]) is at most
    [b.start + X]. *)
Theorem generateItineraries_pairs_feasible (parse : string → option Z)
    (state : AppState) :
  ∃ its,
    generateItineraries parse state = Some its
    ∧ Forall (λ it,
        ∀ i a b, shows it !! i = Some a → shows it !! S i = Some b →
          startMs a <= startMs b
          ∧ endMs a
              + (if decide (theaterId a = theaterId b) then 0
                 else travelMins (settings state)) * 60000
            <= startMs b + trailerLeewayMins (settings state) * 60000) its.
Proof.
  destruct (generateItineraries_eq parse state)
    as (finished & _ & Hok & _ & _ & _ & ->).
  eexists; split; [done|].
  apply Forall_slice0, Forall_sortBy.
  eapply Forall_impl; [exact Hok|].
  intros it [[_ Hl _ _ _] _ _ _]. exact Hl.
Qed.

(** C10.  Whatever the settings, [generateItineraries] returns a
    non-empty list as soon as one scheduled instance survives, and never
    more than 200 itineraries: the result is cut at [clampInt K 1 200]. *)
Theorem generateItineraries_nonempty_capped (parse : string → option Z)
    (state : AppState) :
  ∃ its,
    generateItineraries parse state = Some its
    ∧ (buildScheduledShows parse state ≠ [] → its ≠ [])
    ∧ (length its ≤ 200)%nat.
Proof.
  destruct (generateItineraries_eq parse state)
    as (finished & _ & _ & _ & Hne & _ & ->).
  eexists; split; [done|].
  pose proof (slice0_length_nonneg (sortItineraries finished)
                (clampInt (maxResults (settings state)) 1 200)) as Hlen.
  unfold sortItineraries in *. rewrite sortBy_length in Hlen.
  unfold clampInt in *. split.
  - intros Hs. specialize (Hne Hs). intros Hnil. rewrite Hnil in Hlen.
    simpl in Hlen. destruct finished; [done|]. simpl in Hlen. lia.
  - lia.
Qed.

Lemma generateItineraries_nonempty_capped_witness :
  ∃ its,
    generateItineraries isoLocalUtc (soloState 0 0) = Some its
    ∧ its ≠ [] ∧ (length its ≤ 200)%nat.
Proof.
  destruct (generateItineraries_nonempty_capped isoLocalUtc (soloState 0 0))
    as (its & Hits & Hne & Hlen).
  exists its. split; [exact Hits|]. split; [|exact Hlen].
  apply Hne. vm_compute. discriminate.
Defined.

Lemma slice0_take_nonneg {A : Type} (l : list A) (e : Z) :
  0 <= e → slice0 l e = take (Z.to_nat e) l.
Proof.
  intros He. unfold slice0.
  destruct (e <? 0) eqn:E; [apply Z.ltb_lt in E; lia|].
  destruct (Z.le_gt_cases e (Z.of_nat (length l))) as [Hle|Hgt].
  - by rewrite Z.min_l.
  - rewrite Z.min_r by lia. rewrite !take_ge by lia. done.
Qed.

Lemma StronglySorted_take_rest {A : Type} (R : A → A → Prop) (l : list A)
    (k : nat) (a b : A) :
  StronglySorted R l → a ∈ take k l → b ∈ l → b ∉ take k l → R a b.
Proof.
  intros Hl Ha Hb Hnb. rewrite <- (take_drop k l) in Hl, Hb.
  apply elem_of_app in Hb as [Hb|Hb]; [done|].
  by eapply StronglySorted_app_1_elem_of.
Qed.

(** C6, as the code has it.  The result is the deduplicated list
    [finished], sorted by preference score descending, then movie count
    descending, then finish instant ascending, and cut at
    [clampInt K 1 200]: the whole of [finished] is put in that order
    before the cut, chains equal on all three keys staying in the order
    they were found, the result is the first [clampInt K 1 200] entries
    of the sorted list, and every chain that is returned ranks before
    every chain that is left out.
    Its length is the smaller of that bound and the number of
    deduplicated chains, hence at most [min K 200] whenever [K >= 1]. *)
Theorem generateItineraries_ranked_truncated (parse : string → option Z)
    (state : AppState) :
  ∃ finished its,
    finishedItineraries parse state = Some finished
    ∧ NoDup (itineraryKey <$> finished)
    ∧ generateItineraries parse state = Some its
    ∧ its `prefix_of` sortItineraries finished
    ∧ sortItineraries finished ≡ₚ finished
    ∧ StronglySorted ranksBefore its
    ∧ Z.of_nat (length its)
      = Z.min (clampInt (maxResults (settings state)) 1 200)
              (Z.of_nat (length finished))
    ∧ (1 <= maxResults (settings state) →
       Z.of_nat (length its) <= Z.min (maxResults (settings state)) 200)
    ∧ StronglySorted ranksBefore (sortItineraries finished)
    ∧ (∀ x, filter (λ y, itineraryScore y = itineraryScore x)
              (sortItineraries finished)
            = filter (λ y, itineraryScore y = itineraryScore x) finished)
    ∧ its
      = take (Z.to_nat (clampInt (maxResults (settings state)) 1 200))
          (sortItineraries finished)
    ∧ (∀ a b, a ∈ its → b ∈ finished → b ∉ its → ranksBefore a b).
Proof.
  destruct (generateItineraries_eq parse state)
    as (finished & Hfin & _ & Hdist & _ & _ & Hgen).
  exists finished. eexists. split; [done|]. split; [done|].
  split; [exact Hgen|].
  pose proof (slice0_length_nonneg (sortItineraries finished)
                (clampInt (maxResults (settings state)) 1 200)) as Hlen.
  unfold sortItineraries in Hlen. rewrite sortBy_length in Hlen.
  assert (0 <= clampInt (maxResults (settings state)) 1 200) as HK
    by (unfold clampInt; lia).
  split; [|split; [|split; [|split; [|split;
    [|split; [|split; [|split]]]]]]].
  - unfold slice0. apply prefix_take.
  - apply sortBy_Permutation.
  - unfold slice0. apply StronglySorted_take, sortItineraries_sorted.
  - apply Hlen. unfold clampInt. lia.
  - intros HK1. unfold sortItineraries. rewrite Hlen by done.
    unfold clampInt. lia.
  - apply sortItineraries_sorted.
  - intros x. unfold sortItineraries. apply sortBy_stable.
    intros y z Hy Hz. apply cmpItinerary_ranksBefore.
    unfold itineraryScore in Hy, Hz. unfold ranksBefore.
    injection Hy as ? ? ?. injection Hz as ? ? ?. lia.
  - by apply slice0_take_nonneg.
  - intros a b Ha Hb Hnb.
    rewrite (slice0_take_nonneg _ _ HK) in Ha, Hnb.
    eapply StronglySorted_take_rest;
      [apply sortItineraries_sorted|exact Ha| |exact Hnb].
    unfold sortItineraries. by apply elem_of_sortBy.
Qed.

Lemma generateItineraries_ranked_truncated_witness :
  ∃ its,
    generateItineraries isoLocalUtc (soloState 20 200) = Some its
    ∧ StronglySorted ranksBefore its
    ∧ Z.of_nat (length its) <= Z.min 20 200.
Proof.
  destruct (generateItineraries_ranked_truncated isoLocalUtc
              (soloState 20 200))
    as (finished & its & _ & _ & Hits & _ & _ & Hsorted & _ & Hlen & _).
  exists its. split; [exact Hits|]. split; [exact Hsorted|].
  apply Hlen. vm_compute. discriminate.
Defined.

(** C6 as stated fails for [K = 0]: one showing yields one itinerary,
    more than [min K 200 = 0]. *)
Lemma generateItineraries_length_counterexample :
  maxResults (settings (soloState 0 200)) = 0
  ∧ ∃ its,
      generateItineraries isoLocalUtc (soloState 0 200) = Some its
      ∧ ¬ Z.of_nat (length its)
          <= Z.min (maxResults (settings (soloState 0 200))) 200.
Proof.
  split; [done|]. eexists. split; [vm_compute; reflexivity|].
  vm_compute. intros H. by apply H.
Qed.

(** C4, as the code has it.  [generateItineraries] returns for every
    input, [K = 0] and [W = 0] included.  The result is empty exactly when
    no scheduled instance survives.  [K = 0] is clamped to 1, so at most
    one itinerary comes back; with [W = 0] the search stops after the
    first layer, so only single-show itineraries come back. *)
Theorem generateItineraries_degenerate_settings
    (parse : string → option Z) (state : AppState) :
  ∃ its,
    generateItineraries parse state = Some its
    ∧ (its = [] ↔ buildScheduledShows parse state = [])
    ∧ (maxResults (settings state) = 0 → (length its ≤ 1)%nat)
    ∧ (beamWidth (settings state) = 0 →
       Forall (λ it, length (shows it) = 1%nat) its).
Proof.
  destruct (generateItineraries_eq parse state)
    as (finished & Hfin & Hok & _ & Hne & Hnil & ->).
  eexists; split; [done|].
  pose proof (slice0_length_nonneg (sortItineraries finished)
                (clampInt (maxResults (settings state)) 1 200)) as Hlen.
  unfold sortItineraries in *. rewrite sortBy_length in Hlen.
  split; [|split].
  - split.
    + intros Hits.
      destruct (buildScheduledShows parse state) eqn:Hs; [done|].
      assert (finished ≠ []) as Hf by (by apply Hne).
      rewrite Hits in Hlen. simpl in Hlen.
      destruct finished; [done|]. simpl in Hlen. unfold clampInt in Hlen.
      lia.
    + intros Hs. rewrite (Hnil Hs). unfold slice0. simpl.
      by rewrite take_nil.
  - intros HK. rewrite HK in Hlen |- *. unfold clampInt in Hlen |- *. lia.
  - intros HW. apply Forall_slice0, Forall_sortBy.
    unfold finishedItineraries in Hfin. rewrite HW in Hfin.
    destruct (search _ _ _ _ _ _ _ _) as [acc|] eqn:Hsearch; [|done].
    injection Hfin as <-.
    apply Forall_forall. intros it Hit.
    eapply search_zero_width in Hsearch as Hfrom;
      [|apply adjacency_ok|apply initial_ok| |exact Hit].
    + destruct Hfrom as [Hin|(p & Hp & ->)].
      * simpl in Hin. by apply elem_of_nil in Hin.
      * unfold initial in Hp.
        by apply elem_of_lookup_imap in Hp as (idx & s & -> & _).
    + split; simpl; [constructor|constructor|].
      intros k. by rewrite elem_of_empty, elem_of_nil.
Qed.

Lemma generateItineraries_degenerate_settings_witness :
  ∃ its,
    generateItineraries isoLocalUtc (soloState 0 0) = Some its
    ∧ (length its ≤ 1)%nat
    ∧ Forall (λ it, length (shows it) = 1%nat) its.
Proof.
  destruct (generateItineraries_degenerate_settings isoLocalUtc
              (soloState 0 0)) as (its & Hits & _ & HK & HW).
  exists its. split; [exact Hits|].
  split; [apply HK|apply HW]; reflexivity.
Defined.

(** C4 as stated fails for [K = 0] and for [W = 0]: with one showing
    either setting still yields the single-show itinerary. *)
Lemma generateItineraries_zero_settings_counterexample :
  generateItineraries isoLocalUtc (soloState 0 200)
  = Some [mkItinerary
            [mkScheduledShow "s1" "m1" "t1" 1709287200000 1709293200000]
            0 1 1709293200000 0]
  ∧ generateItineraries isoLocalUtc (soloState 20 0)
    = Some [mkItinerary
              [mkScheduledShow "s1" "m1" "t1" 1709287200000 1709293200000]
              0 1 1709293200000 0].
Proof. split; vm_compute; reflexivity. Qed.

(** Two runs of the engine.  Back to back in one theater with no leeway,
    the two showings chain with no travel; across theaters with a gap of
    20 minutes, travel 45 and leeway 20, they do not. *)
Example generateItineraries_back_to_back :
  let r := generateItineraries isoLocalUtc
             (pairState 0 15 "t1" "2024-03-01T11:40") in
  summary r = Some [(["s1"; "s2"], 0); (["s1"], 0); (["s2"], 0)]
  ∧ option_map (map totalTravelMins) r = Some [0; 0; 0].
Proof. split; vm_compute; reflexivity. Qed.

Example generateItineraries_gap_too_short :
  summary (generateItineraries isoLocalUtc
             (pairState 20 45 "t2" "2024-03-01T12:00"))
  = Some [(["s1"], 0); (["s2"], 0)].
Proof. vm_compute. reflexivity. Qed.

(** ** Beam width *)

(** C7 as stated fails: on [detourState] beam width 1 finds the chain
    a, b1, m, d2 of four movies (score 399996), while beam width 2 keeps
    the two earliest-finishing chains a, d1, b2 and a, d1, b3 at the third
    layer, which cannot be extended, and ends with best score 299997. *)
Lemma generateItineraries_beam_counterexample :
  summary (generateItineraries isoLocalUtc (withBeamWidth detourState 1))
  = Some [(["a"; "b1"; "m"; "d2"], 399996); (["a"; "b1"; "m"], 299997);
          (["a"; "b1"], 199998); (["a"], 99999); (["b1"], 99999);
          (["d1"], 99999); (["b2"], 99999); (["b3"], 99999);
          (["m"], 99999); (["d2"], 99999)]
  ∧ summary (generateItineraries isoLocalUtc (withBeamWidth detourState 2))
    = Some [(["a"; "d1"; "b2"], 299997); (["a"; "d1"; "b3"], 299997);
            (["a"; "b1"], 199998); (["a"; "d1"], 199998); (["a"], 99999);
            (["b1"], 99999); (["d1"], 99999); (["b2"], 99999);
            (["b3"], 99999); (["m"], 99999); (["d2"], 99999)]
  ∧ ∃ its its',
      generateItineraries isoLocalUtc (withBeamWidth detourState 1) = Some its
      ∧ generateItineraries isoLocalUtc (withBeamWidth detourState 2)
        = Some its'
      ∧ 1 <= 2 ∧ ¬ bestScoreLe its its'.
Proof.
  split; [vm_compute; reflexivity|]. split; [vm_compute; reflexivity|].
  eexists _, _. split; [vm_compute; reflexivity|].
  split; [vm_compute; reflexivity|]. split; [lia|].
  intros Hle. edestruct Hle as (it' & Hit' & Hscore); [left|].
  simpl in Hscore.
  repeat (apply elem_of_cons in Hit' as [->|Hit']; [simpl in Hscore; lia|]).
  by apply elem_of_nil in Hit'.
Qed.

(** *** Keys of chains of different lengths differ *)

Lemma occurs_append (c : ascii) (x r : string) :
  occurs c (String.append x (String c r)) = true.
Proof.
  induction x as [|d x IH]; simpl.
  - by rewrite Ascii.eqb_refl.
  - rewrite IH. by destruct (Ascii.eqb c d).
Qed.

Lemma append_sep_inj (c : ascii) (x y r1 r2 : string) :
  occurs c x = false → occurs c y = false →
  String.append x (String c r1) = String.append y (String c r2) →
  x = y ∧ r1 = r2.
Proof.
  revert y. induction x as [|d x IH]; intros [|e y]; simpl.
  - intros _ _ [= ->]. done.
  - intros _ He [= <- _]. by rewrite Ascii.eqb_refl in He.
  - intros Hd _ [= -> _]. by rewrite Ascii.eqb_refl in Hd.
  - intros Hd He [= -> Heq].
    apply orb_false_iff in Hd as [_ Hd]. apply orb_false_iff in He as [_ He].
    destruct (IH y Hd He Heq) as [-> ->]. done.
Qed.

Lemma concat_sep_cons (c : ascii) (x y : string) (l : list string) :
  String.concat (String c EmptyString) (x :: y :: l)
  = String.append x (String c (String.concat (String c EmptyString) (y :: l))).
Proof. reflexivity. Qed.

(** Joining with a separator that occurs in no element loses nothing. *)
Lemma concat_sep_inj (c : ascii) (l1 l2 : list string) :
  Forall (λ x, occurs c x = false) l1 →
  Forall (λ x, occurs c x = false) l2 →
  l1 ≠ [] → l2 ≠ [] →
  String.concat (String c EmptyString) l1
  = String.concat (String c EmptyString) l2 →
  l1 = l2.
Proof.
  intros H1. revert l2.
  induction H1 as [|x l1 Hx H1 IH]; intros l2 H2 Hne1 Hne2; [done|].
  destruct H2 as [|y l2 Hy H2]; [done|].
  destruct l1 as [|x' l1], l2 as [|y' l2]; rewrite ?concat_sep_cons.
  - simpl. by intros ->.
  - change (String.concat _ [x]) with x.
    intros ->. by rewrite occurs_append in Hx.
  - change (String.concat _ [y]) with y.
    intros <-. by rewrite occurs_append in Hy.
  - intros Heq. apply append_sep_inj in Heq as [-> Heq]; [|done..].
    f_equal. by apply IH.
Qed.

Lemma chainKey_length (X T : Z) (scheduled l1 l2 : list ScheduledShow) :
  Forall (λ s, occurs ">" (showtimeId s) = false) scheduled →
  chain_ok X T scheduled l1 → chain_ok X T scheduled l2 →
  chainKey l1 = chainKey l2 → length l1 = length l2.
Proof.
  intros Hfree [Hne1 _ _ _ Hin1] [Hne2 _ _ _ Hin2] Hkey.
  assert (Hfree' : ∀ l, Forall (λ s, s ∈ scheduled) l →
            Forall (λ x, occurs ">" x = false) (showtimeId <$> l)).
  { intros l Hl. apply Forall_fmap. eapply Forall_impl; [exact Hl|].
    intros s Hs. simpl. by eapply (proj1 (Forall_forall _ _) Hfree). }
  rewrite <- (length_fmap showtimeId l1), <- (length_fmap showtimeId l2).
  f_equal.
  apply (concat_sep_inj ">"); [by apply Hfree'..| | |exact Hkey].
  - by destruct l1.
  - by destruct l2.
Qed.

Lemma scheduleShow_showtimeId (parse : string → option Z)
    (movieById : gmap string Movie) (st : Showtime) (s : ScheduledShow) :
  scheduleShow parse movieById st = Some s → showtimeId s = st_id st.
Proof.
  unfold scheduleShow.
  destruct (movieById !! st_movieId st); [|done].
  destruct (parseLocalDateTimeToMs parse (st_startLocal st)); [|done].
  by intros [= <-].
Qed.

Lemma buildScheduledShows_ids (parse : string → option Z)
    (state : AppState) :
  Forall (λ st, occurs ">" (st_id st) = false) (showtimes state) →
  Forall (λ s, occurs ">" (showtimeId s) = false)
    (buildScheduledShows parse state).
Proof.
  intros Hfree. rewrite buildScheduledShows_Permutation.
  apply Forall_forall. intros s Hs.
  apply list_elem_of_omap in Hs as (st & Hst & Hs).
  rewrite (scheduleShow_showtimeId _ _ _ _ Hs).
  by eapply (proj1 (Forall_forall _ _) Hfree).
Qed.

(** *** The order of the beam *)

Lemma cmpPartial_le (a b : Partial) :
  cmpPartial a b <= 0 ↔
  p_preferenceScore b < p_preferenceScore a
  ∨ (p_preferenceScore a = p_preferenceScore b
     ∧ ((length (p_shows b) < length (p_shows a))%nat
        ∨ (length (p_shows a) = length (p_shows b)
           ∧ (lastEndMs (p_shows a) < lastEndMs (p_shows b)
              ∨ (lastEndMs (p_shows a) = lastEndMs (p_shows b)
                 ∧ p_totalTravelMins a <= p_totalTravelMins b))))).
Proof.
  unfold cmpPartial.
  destruct (Z.eqb_spec (p_preferenceScore b) (p_preferenceScore a));
    simpl; [|lia].
  destruct (Nat.eqb_spec (length (p_shows b)) (length (p_shows a)));
    simpl; [|lia].
  destruct (Z.eqb_spec (lastEndMs (p_shows a)) (lastEndMs (p_shows b)));
    simpl; lia.
Qed.

Lemma cmpPartial_total (a b : Partial) :
  0 < cmpPartial a b → cmpPartial b a <= 0.
Proof.
  intros H. assert (¬ cmpPartial a b <= 0) as Hn by lia.
  rewrite cmpPartial_le in Hn. apply cmpPartial_le. lia.
Qed.

Lemma cmpPartial_trans (a b c : Partial) :
  cmpPartial a b <= 0 → cmpPartial b c <= 0 → cmpPartial a c <= 0.
Proof. rewrite !cmpPartial_le. lia. Qed.

Lemma sortBy_cmpPartial_sorted (l : list Partial) :
  StronglySorted (λ a b, cmpPartial a b <= 0) (sortBy cmpPartial l).
Proof.
  apply sortBy_StronglySorted;
    [apply cmpPartial_total|apply cmpPartial_trans].
Qed.

(** *** A beam that never prunes matches every chain of a narrower one *)

Lemma expandFrom_length (movieById : gmap string Movie)
    (scheduled : list ScheduledShow) (p : Partial) (costs : list Z)
    (candidates : list nat) (k : nat) (out : list Partial) :
  expandFrom movieById scheduled p costs k candidates = Some out →
  Forall (λ q, length (p_shows q) = S (length (p_shows p))) out.
Proof.
  revert k out. induction candidates as [|j cands IH]; intros k out; simpl.
  { by intros [= <-]. }
  destruct (scheduled !! j) as [b|]; [|done].
  destruct (decide _); [by apply IH|].
  destruct (decide _); [by apply IH|].
  destruct (costs !! k); [|done].
  destruct (expandFrom _ _ _ _ _ cands) as [rest|] eqn:Hrest; [|done].
  intros [= <-]. constructor; [|by eapply IH].
  simpl. rewrite length_app. simpl. lia.
Qed.

Section WideBeam.
Variables (X T : Z) (movieById : gmap string Movie).
Variable scheduled : list ScheduledShow.
Variables (nexts : list (list nat)) (travelCost : list (list Z)).
Hypothesis graph : graph_ok X T scheduled nexts travelCost.
Hypothesis separator_free :
  Forall (λ s, occurs ">" (showtimeId s) = false) scheduled.

Local Abbreviation partial_ok' := (partial_ok X T movieById scheduled).
Local Abbreviation finished_ok' := (finished_ok X T movieById scheduled).
Local Abbreviation expandAll' :=
  (expandAll movieById scheduled nexts travelCost).
Local Abbreviation search' := (search movieById scheduled nexts travelCost).
Local Abbreviation sorted' := (StronglySorted (λ a b, cmpPartial a b <= 0)).

Lemma expandAll_elem (beam out here : list Partial) (p : Partial) :
  expandAll' beam = Some out → p ∈ beam →
  expand movieById scheduled nexts travelCost p = Some here →
  here ⊆ out.
Proof.
  revert out. induction beam as [|q beam IH]; intros out; simpl.
  { by intros _ Hp%elem_of_nil. }
  destruct (expand _ _ _ _ q) as [hq|] eqn:Hq; [|done].
  destruct (expandAll' beam) as [rest|] eqn:Hrest; [|done].
  intros [= <-] [->|Hp]%elem_of_cons Hhere x Hx; apply elem_of_app.
  - left. congruence.
  - right. by eapply IH.
Qed.

Lemma expandAll_subseteq (beam beam' out out' : list Partial) :
  expandAll' beam = Some out → expandAll' beam' = Some out' →
  beam ⊆ beam' → out ⊆ out'.
Proof.
  revert out. induction beam as [|q beam IH]; intros out; simpl.
  { intros [= <-] _ _ x Hx. by apply elem_of_nil in Hx. }
  destruct (expand _ _ _ _ q) as [hq|] eqn:Hq; [|done].
  destruct (expandAll' beam) as [rest|] eqn:Hrest; [|done].
  intros [= <-] Hout' Hsub x [Hx|Hx]%elem_of_app.
  - eapply expandAll_elem; [exact Hout'| |exact Hq|exact Hx].
    apply Hsub. left.
  - eapply IH; [done|exact Hout'| |exact Hx].
    intros y Hy. apply Hsub. by right.
Qed.

Lemma expandAll_length (L : nat) (beam out : list Partial) :
  expandAll' beam = Some out →
  Forall (λ p, length (p_shows p) = L) beam →
  Forall (λ q, length (p_shows q) = S L) out.
Proof.
  intros Hout Hbeam. revert out Hout.
  induction Hbeam as [|p beam Hp _ IH]; intros out; simpl.
  { by intros [= <-]. }
  unfold expand.
  destruct (nexts !! lastIdx p) as [cands|]; [|done].
  destruct (travelCost !! lastIdx p) as [costs|]; [|done].
  destruct (expandFrom _ _ _ _ _ cands) as [here|] eqn:Hhere; [|done].
  destruct (expandAll' beam) as [rest|]; [|done].
  intros [= <-]. apply Forall_app. split; [|by apply IH].
  rewrite <- Hp. by eapply expandFrom_length.
Qed.

(** After [finalize p] an itinerary with the key of [p] is on record:
    an older one, or the one of [p]. *)
Lemma finalize_recorded (p : Partial)
    (acc acc1 : list Itinerary * gset string) :
  finished_ok' acc → finalize p acc = Some acc1 →
  ∃ it, it ∈ acc1.1 ∧ itineraryKey it = chainKey (p_shows p)
        ∧ (it ∈ acc.1 ∨ preferenceScore it = p_preferenceScore p).
Proof.
  intros [_ _ Hseen]. unfold finalize.
  destruct (last (p_shows p)) as [a|]; [|done]. simpl.
  destruct (decide (chainKey (p_shows p) ∈ acc.2)) as [Hin|Hnin].
  - intros [= <-]. apply Hseen, list_elem_of_fmap in Hin as (it & Hk & Hit).
    exists it. split; [done|]. split; [done|]. by left.
  - intros [= <-]. simpl. eexists. split; [apply elem_of_app; right; left|].
    split; [done|]. by right.
Qed.

(** On a beam in sorted order the itinerary recorded for a key scores at
    least as high as every beam member with that key. *)
Lemma finalizeAll_sorted (beam : list Partial)
    (acc acc' : list Itinerary * gset string) :
  sorted' beam → Forall partial_ok' beam → finished_ok' acc →
  finalizeAll beam acc = Some acc' →
  ∀ p, p ∈ beam →
    ∃ it, it ∈ acc'.1 ∧ itineraryKey it = chainKey (p_shows p)
          ∧ (it ∈ acc.1 ∨ p_preferenceScore p <= preferenceScore it).
Proof.
  intros Hsorted. revert acc.
  induction Hsorted as [|p0 beam Hsorted IH Hp0];
    intros acc Hbeam Hacc; simpl.
  { by intros _ p Hp%elem_of_nil. }
  apply Forall_cons in Hbeam as [Hok0 Hbeam].
  destruct (finalize_ok X T movieById scheduled p0 acc Hok0 Hacc)
    as (acc1 & Hfin & Hacc1 & _ & _ & _ & Hfrom1).
  rewrite Hfin. intros Hall p Hp.
  destruct (finalizeAll_ok X T movieById scheduled beam acc1 Hbeam Hacc1)
    as (acc2 & Hall2 & _ & Hpre2 & _).
  rewrite Hall in Hall2. injection Hall2 as <-.
  apply elem_of_cons in Hp as [->|Hp].
  - destruct (finalize_recorded p0 acc acc1 Hacc Hfin)
      as (it & Hit & Hkey & Hsrc).
    exists it. split; [|split; [done|]].
    + destruct Hpre2 as [rest ->]. apply elem_of_app. by left.
    + destruct Hsrc as [?|Hsc]; [by left|right; lia].
  - destruct (IH acc1 Hbeam Hacc1 Hall p Hp) as (it & Hit & Hkey & Hsrc).
    exists it. split; [done|]. split; [done|].
    destruct Hsrc as [Hit1|?]; [|by right].
    destruct (Hfrom1 it Hit1) as [?|Hshows]; [by left|right].
    pose proof (proj1 (Forall_forall _ _) (finished_itineraries _ _ _ _ _ Hacc1)
                  it Hit1) as [_ Hscore _ _].
    rewrite Hscore, Hshows, <- (partial_score _ _ _ _ _ Hok0).
    pose proof (proj1 (Forall_forall _ _) Hp0 p Hp) as Hle.
    apply cmpPartial_le in Hle. lia.
Qed.

Lemma search_wide (L : nat) (W W' : Z) (steps : nat)
    (beam beam' : list Partial)
    (acc acc' : list Itinerary * gset string) :
  Forall partial_ok' beam → Forall partial_ok' beam' →
  finished_ok' acc → finished_ok' acc' →
  beam ⊆ beam' → sorted' beam' →
  Forall (λ p, length (p_shows p) = L) beam' →
  Forall (λ it, (length (shows it) < L)%nat) acc'.1 →
  bestScoreLe acc.1 acc'.1 →
  neverPrunes movieById scheduled nexts travelCost W' steps beam' = true →
  ∃ r r', search' W steps beam acc = Some r
          ∧ search' W' steps beam' acc' = Some r'
          ∧ bestScoreLe r.1 r'.1.
Proof.
  revert L beam beam' acc acc'.
  induction steps as [|steps IH];
    intros L beam beam' acc acc' Hb Hb' Hacc Hacc' Hsub Hsorted HL Hshort
           Hle Hprune; simpl.
  { exists acc, acc'. done. }
  destruct (finalizeAll_ok X T movieById scheduled beam acc Hb Hacc)
    as (acc1 & -> & Hacc1 & _ & _ & _ & Hfrom).
  destruct (finalizeAll_ok X T movieById scheduled beam' acc' Hb' Hacc')
    as (acc1' & Hfin' & Hacc1' & Hpre' & _ & _ & Hfrom').
  pose proof (finalizeAll_sorted beam' acc' acc1' Hsorted Hb' Hacc' Hfin')
    as Hrec.
  rewrite Hfin'.
  destruct (expandAll_ok X T movieById scheduled nexts travelCost beam
              graph Hb) as (e & He & Hok).
  destruct (expandAll_ok X T movieById scheduled nexts travelCost beam'
              graph Hb') as (e' & He' & Hok').
  simpl in Hprune. rewrite He' in Hprune. rewrite He, He'.
  pose proof (expandAll_subseteq _ _ _ _ He He' Hsub) as Hee'.
  assert (Hle1 : bestScoreLe acc1.1 acc1'.1).
  { intros it Hit. destruct (Hfrom it Hit) as [Hold|(p & Hp & Hshows)].
    - destruct (Hle it Hold) as (it' & Hit' & Hs). exists it'.
      split; [|done]. destruct Hpre' as [rest ->]. apply elem_of_app.
      by left.
    - pose proof (proj1 (Forall_forall _ _) Hb p Hp) as Hpok.
      pose proof (proj1 (Forall_forall _ _)
                    (finished_itineraries _ _ _ _ _ Hacc1) it Hit)
        as [_ Hscore _ _].
      destruct (Hrec p (Hsub p Hp)) as (it' & Hit' & Hkey & [Hold|Hs]).
      + exfalso.
        pose proof (proj1 (Forall_forall _ _) Hshort it' Hold) as Hlt.
        pose proof (proj1 (Forall_forall _ _) HL p (Hsub p Hp)) as HpL.
        pose proof (proj1 (Forall_forall _ _)
                      (finished_itineraries _ _ _ _ _ Hacc1') it' Hit')
          as [Hchain' _ _ _].
        pose proof (chainKey_length X T scheduled (shows it') (p_shows p)
                      separator_free Hchain' (partial_chain _ _ _ _ _ Hpok)
                      Hkey) as Hlen.
        simpl in Hlt, HpL. lia.
      + exists it'. split; [done|].
        rewrite Hscore, Hshows, <- (partial_score _ _ _ _ _ Hpok). done. }
  assert (Hshort1 : Forall (λ it, (length (shows it) < S L)%nat) acc1'.1).
  { apply Forall_forall. intros it Hit.
    destruct (Hfrom' it Hit) as [Hold|(p & Hp & ->)].
    - pose proof (proj1 (Forall_forall _ _) Hshort it Hold) as Hlt.
      simpl in Hlt. lia.
    - rewrite (proj1 (Forall_forall _ _) HL p Hp). lia. }
  destruct (length e =? 0)%nat eqn:Hlen.
  - destruct (length e' =? 0)%nat.
    { exists acc1, acc1'. done. }
    destruct (search_ok X T movieById scheduled nexts travelCost W' steps
                (slice0 (sortBy cmpPartial e') W') acc1')
      as (r' & Hr' & _ & Hpre2 & _); [done| |done|].
    { by apply Forall_slice0, Forall_sortBy. }
    exists acc1, r'. split; [done|]. split; [done|].
    intros it Hit. destruct (Hle1 it Hit) as (it' & Hit' & Hs).
    exists it'. split; [|done]. destruct Hpre2 as [rest ->].
    apply elem_of_app. by left.
  - assert ((length e' =? 0)%nat = false) as Hlen'.
    { apply Nat.eqb_neq. apply Nat.eqb_neq in Hlen.
      destruct e as [|p e]; [done|].
      assert (p ∈ e') as Hp by (apply Hee'; left).
      destruct e'; [by apply elem_of_nil in Hp|done]. }
    rewrite Hlen' in Hprune |- *.
    apply andb_true_iff in Hprune as [Hfit%Z.leb_le Hprune].
    rewrite (slice0_all (sortBy cmpPartial e') W') in Hprune |- *
      by (by rewrite sortBy_length).
    apply (IH (S L)).
    + by apply Forall_slice0, Forall_sortBy.
    + by apply Forall_sortBy.
    + done.
    + done.
    + intros p Hp. apply elem_of_sortBy, Hee'.
      by eapply elem_of_sortBy, elem_of_slice0.
    + apply sortBy_cmpPartial_sorted.
    + apply Forall_sortBy. by eapply expandAll_length.
    + done.
    + done.
    + done.
Qed.

(** The first layer is the same for every beam width. *)
Lemma search_wide_first (W W' : Z) (steps : nat) (beam : list Partial)
    (acc : list Itinerary * gset string) :
  Forall partial_ok' beam → finished_ok' acc →
  Forall (λ p, length (p_shows p) = 1%nat) beam → acc.1 = [] →
  neverPrunes movieById scheduled nexts travelCost W' steps beam = true →
  ∃ r r', search' W steps beam acc = Some r
          ∧ search' W' steps beam acc = Some r'
          ∧ bestScoreLe r.1 r'.1.
Proof.
  intros Hb Hacc Hone Hnil Hprune.
  assert (Hrefl : ∀ l : list Itinerary, bestScoreLe l l).
  { intros l it Hit. exists it. split; [done|lia]. }
  destruct steps as [|steps]; simpl.
  { exists acc, acc. done. }
  destruct (finalizeAll_ok X T movieById scheduled beam acc Hb Hacc)
    as (acc1 & -> & Hacc1 & _ & _ & _ & Hfrom).
  destruct (expandAll_ok X T movieById scheduled nexts travelCost beam
              graph Hb) as (e & He & Hok).
  simpl in Hprune. rewrite He in Hprune. rewrite He.
  destruct (length e =? 0)%nat.
  { exists acc1, acc1. done. }
  apply andb_true_iff in Hprune as [Hfit%Z.leb_le Hprune].
  rewrite slice0_all in Hprune by (by rewrite sortBy_length).
  rewrite (slice0_all _ W') by (by rewrite sortBy_length).
  apply (search_wide 2).
  - by apply Forall_slice0, Forall_sortBy.
  - by apply Forall_sortBy.
  - done.
  - done.
  - intros p Hp. by eapply elem_of_slice0.
  - apply sortBy_cmpPartial_sorted.
  - apply Forall_sortBy. by eapply expandAll_length.
  - apply Forall_forall. intros it Hit.
    destruct (Hfrom it Hit) as [Hold|(p & Hp & ->)].
    + rewrite Hnil in Hold. by apply elem_of_nil in Hold.
    + rewrite (proj1 (Forall_forall _ _) Hone p Hp). lia.
  - apply Hrefl.
  - done.
Qed.

End WideBeam.

Lemma sortItineraries_head_best (finished : list Itinerary)
    (it : Itinerary) (c : Z) :
  it ∈ finished → 1 <= c →
  ∃ it', it' ∈ slice0 (sortItineraries finished) c
         ∧ preferenceScore it <= preferenceScore it'.
Proof.
  intros Hit Hc.
  pose proof (sortItineraries_sorted finished) as Hsorted.
  assert (it ∈ sortItineraries finished) as Hin
    by (by apply elem_of_sortBy).
  destruct (sortItineraries finished) as [|h t]; [by apply elem_of_nil in Hin|].
  exists h. split.
  - unfold slice0. destruct (c <? 0) eqn:E; [apply Z.ltb_lt in E; lia|].
    simpl length.
    destruct (Z.to_nat (Z.min c (Z.of_nat (S (length t))))) eqn:Hk; [lia|].
    left.
  - apply StronglySorted_inv in Hsorted as [_ Hh].
    apply elem_of_cons in Hin as [->|Hin]; [lia|].
    pose proof (proj1 (Forall_forall _ _) Hh it Hin) as Hr.
    unfold ranksBefore in Hr. lia.
Qed.

Lemma beamNeverPrunes_withBeamWidth (parse : string → option Z)
    (state : AppState) (W : Z) :
  beamNeverPrunes parse (withBeamWidth state W)
  = let shows := buildScheduledShows parse state in
    let adj := adjacency (trailerLeewayMins (settings state))
                 (travelMins (settings state)) shows in
    neverPrunes (movieMap (movies state)) shows adj.*1 adj.*2 W
      (length shows) (initial (movieMap (movies state)) shows).
Proof. reflexivity. Qed.

Lemma finishedItineraries_withBeamWidth (parse : string → option Z)
    (state : AppState) (W : Z) :
  finishedItineraries parse (withBeamWidth state W)
  = let shows := buildScheduledShows parse state in
    let adj := adjacency (trailerLeewayMins (settings state))
                 (travelMins (settings state)) shows in
    match search (movieMap (movies state)) shows adj.*1 adj.*2 W
            (length shows) (initial (movieMap (movies state)) shows)
            ([], ∅) with
    | None => None
    | Some acc => Some acc.1
    end.
Proof. reflexivity. Qed.

Lemma finishedItineraries_wide (parse : string → option Z)
    (state : AppState) (W W' : Z) :
  beamNeverPrunes parse (withBeamWidth state W') = true →
  Forall (λ st, occurs ">" (st_id st) = false) (showtimes state) →
  ∃ finished finished',
    finishedItineraries parse (withBeamWidth state W) = Some finished
    ∧ finishedItineraries parse (withBeamWidth state W') = Some finished'
    ∧ bestScoreLe finished finished'.
Proof.
  intros Hprune Hfree. rewrite beamNeverPrunes_withBeamWidth in Hprune.
  cbv zeta in Hprune.
  destruct (search_wide_first (trailerLeewayMins (settings state))
              (travelMins (settings state)) (movieMap (movies state))
              (buildScheduledShows parse state) _ _ (adjacency_ok _ _ _)
              (buildScheduledShows_ids parse state Hfree) W W'
              (length (buildScheduledShows parse state))
              (initial (movieMap (movies state))
                 (buildScheduledShows parse state)) ([], ∅))
    as (r & r' & Hr & Hr' & Hle).
  - apply initial_ok.
  - split; simpl; [constructor|constructor|].
    intros k. by rewrite elem_of_empty, elem_of_nil.
  - apply Forall_forall. intros p Hp. unfold initial in Hp.
    by apply elem_of_lookup_imap in Hp as (idx & s & -> & _).
  - done.
  - exact Hprune.
  - exists r.1, r'.1. rewrite !finishedItineraries_withBeamWidth. cbv zeta.
    by rewrite Hr, Hr'.
Qed.

(** C7, as the code has it.  When no showtime identity contains the key
    separator, a beam width [W'] under which the search discards no
    candidate returns a best preference score at least as high as any
    other beam width [W], smaller ones included. *)
Theorem generateItineraries_wide_beam (parse : string → option Z)
    (state : AppState) (W W' : Z) :
  beamNeverPrunes parse (withBeamWidth state W') = true →
  Forall (λ st, occurs ">" (st_id st) = false) (showtimes state) →
  ∃ its its',
    generateItineraries parse (withBeamWidth state W) = Some its
    ∧ generateItineraries parse (withBeamWidth state W') = Some its'
    ∧ bestScoreLe its its'.
Proof.
  intros Hprune Hfree.
  destruct (finishedItineraries_wide parse state W W' Hprune Hfree)
    as (f0 & f0' & Hr & Hr' & Hle).
  destruct (generateItineraries_eq parse (withBeamWidth state W))
    as (f & Hf & _ & _ & _ & _ & ->).
  destruct (generateItineraries_eq parse (withBeamWidth state W'))
    as (f' & Hf' & _ & _ & _ & _ & ->).
  rewrite Hr in Hf. injection Hf as <-.
  rewrite Hr' in Hf'. injection Hf' as <-.
  eexists _, _. split; [done|]. split; [done|].
  intros it Hit. apply elem_of_slice0, elem_of_sortBy in Hit.
  destruct (Hle it Hit) as (it0 & Hit0 & Hle0).
  destruct (sortItineraries_head_best f0' it0
              (clampInt (maxResults (settings (withBeamWidth state W'))) 1 200)
              Hit0) as (best & Hbest & Hle1).
  { unfold clampInt. lia. }
  exists best. split; [done|lia].
Qed.

Lemma generateItineraries_wide_beam_witness :
  ∃ its its',
    generateItineraries isoLocalUtc (withBeamWidth detourState 1) = Some its
    ∧ generateItineraries isoLocalUtc (withBeamWidth detourState 200)
      = Some its'
    ∧ bestScoreLe its its'.
Proof.
  apply (generateItineraries_wide_beam isoLocalUtc detourState 1 200).
  - vm_compute. reflexivity.
  - repeat constructor.
Defined.

(** The condition on the separator cannot be dropped: on
    [collisionState] beam width 200 discards nothing, yet the pair
    x, a>b takes the key "x>a>b" at the second layer and the three-movie
    chain x, a, b is then dropped as a duplicate (as is the pair a, b,
    whose key is that of the showing "a>b"), while beam width 1 never
    holds the pair x, a>b and returns the chain. *)
Example generateItineraries_key_collision :
  beamNeverPrunes isoLocalUtc (withBeamWidth collisionState 200) = true
  ∧ summary (generateItineraries isoLocalUtc (withBeamWidth collisionState 1))
    = Some [(["x"; "a"; "b"], 299997); (["x"; "a"], 199998);
            (["x"], 99999); (["a"], 99999); (["b"], 99999);
            (["a>b"], 0)]
  ∧ summary
      (generateItineraries isoLocalUtc (withBeamWidth collisionState 200))
    = Some [(["x"; "a"], 199998); (["x"; "b"], 199998);
            (["x"; "a>b"], 99999); (["x"], 99999); (["a"], 99999);
            (["b"], 99999); (["a>b"], 0)].
Proof. repeat split; vm_compute; reflexivity. Qed.

(** * Further properties *)

(** ** Numbers and scores *)

(** X1.  [clampInt] lands in [[min, max]] whenever [min <= max], leaves a
    value of that range alone, returns [min] when the bounds are crossed,
    and clamping twice is clamping once. *)
Theorem clampInt_range (n lo hi : Z) :
  (lo <= hi → lo <= clampInt n lo hi <= hi)
  ∧ (lo <= n <= hi → clampInt n lo hi = n)
  ∧ (hi < lo → clampInt n lo hi = lo)
  ∧ clampInt (clampInt n lo hi) lo hi = clampInt n lo hi.
Proof. unfold clampInt. lia. Qed.

Lemma clampInt_range_witness :
  1 <= clampInt 700 1 600 <= 600 ∧ clampInt 90 1 600 = 90
  ∧ clampInt 5 10 1 = 10.
Proof.
  destruct (clampInt_range 700 1 600) as (H1 & _).
  destruct (clampInt_range 90 1 600) as (_ & H2 & _).
  destruct (clampInt_range 5 10 1) as (_ & _ & H3 & _).
  split; [apply H1; lia|]. split; [apply H2; lia|apply H3; lia].
Defined.

(** X2.  Preference points lie between 0 and 99999; a ranked movie never
    gets fewer than 90001, whatever its rank. *)
Theorem moviePreferencePoints_bounds (m : Movie) :
  0 <= moviePreferencePoints m <= 99999
  ∧ (is_Some (m_rank m) → 90001 <= moviePreferencePoints m).
Proof.
  unfold moviePreferencePoints, clampInt.
  destruct (m_rank m) as [r|]; simpl.
  - split; [lia|]. intros _. lia.
  - split; [lia|]. by intros [? ?].
Qed.

Lemma moviePreferencePoints_bounds_witness :
  90001 <= moviePreferencePoints movieRank10001.
Proof.
  apply (proj2 (moviePreferencePoints_bounds movieRank10001)). by eexists.
Defined.

(** X3.  More leeway and less travel never turn an accepted transition
    into a refused one. *)
Theorem canTransition_monotone (a b : ScheduledShow) (X X' T T' : Z) :
  X <= X' → T' <= T →
  ok (canTransition a b X T) = true → ok (canTransition a b X' T') = true.
Proof.
  unfold canTransition. intros HX HT.
  destruct (startMs b <? startMs a); [done|]. simpl.
  destruct (String.eqb (theaterId a) (theaterId b));
    intros H%Z.leb_le; apply Z.leb_le; lia.
Qed.

Lemma canTransition_monotone_witness :
  ok (canTransition overlapA overlapB 30 10) = true.
Proof.
  apply (canTransition_monotone overlapA overlapB 20 30 15 10);
    [lia|lia|vm_compute; reflexivity].
Defined.

(** ** The ranker *)

Lemma ranksBefore_scoreLe (a b : Itinerary) :
  ranksBefore a b ↔ scoreLe (itineraryScore b) (itineraryScore a).
Proof. unfold ranksBefore, scoreLe, itineraryScore. simpl. lia. Qed.

Lemma sortBy_sorted_id {A : Type} (cmp : A → A → Z) (l : list A) :
  StronglySorted (λ a b, cmp a b <= 0) l → sortBy cmp l = l.
Proof.
  induction 1 as [|x l Hl IH Hx]; simpl; [done|].
  rewrite IH. destruct Hx as [|y l Hy _]; simpl; [done|].
  apply Z.leb_le in Hy. by rewrite Hy.
Qed.

Lemma cmpItinerary_total (a b : Itinerary) :
  0 < cmpItinerary a b → cmpItinerary b a <= 0.
Proof.
  intros H. apply cmpItinerary_ranksBefore, ranksBefore_total.
  rewrite <- cmpItinerary_ranksBefore. lia.
Qed.

Lemma cmpItinerary_trans (a b c : Itinerary) :
  cmpItinerary a b <= 0 → cmpItinerary b c <= 0 → cmpItinerary a c <= 0.
Proof. rewrite !cmpItinerary_ranksBefore. apply ranksBefore_trans. Qed.

(** X4.  [sortItineraries] rearranges its argument, losing and adding
    nothing, into descending lexicographic order of [itineraryScore]:
    the triple that function documents as "higher is better". *)
Theorem sortItineraries_by_itineraryScore (its : list Itinerary) :
  sortItineraries its ≡ₚ its
  ∧ StronglySorted (λ a b, scoreLe (itineraryScore b) (itineraryScore a))
      (sortItineraries its).
Proof.
  split; [apply sortBy_Permutation|].
  eapply StronglySorted_mono; [|apply sortItineraries_sorted].
  intros a b. apply ranksBefore_scoreLe.
Qed.

(** X5.  [sortItineraries] is idempotent, and itineraries that tie on
    all three keys keep the order they had in the argument. *)
Theorem sortItineraries_idempotent_stable (its : list Itinerary) :
  sortItineraries (sortItineraries its) = sortItineraries its
  ∧ ∀ x, filter (λ y, itineraryScore y = itineraryScore x)
               (sortItineraries its)
         = filter (λ y, itineraryScore y = itineraryScore x) its.
Proof.
  split.
  - unfold sortItineraries. apply sortBy_sorted_id.
    apply sortBy_StronglySorted;
      [apply cmpItinerary_total|apply cmpItinerary_trans].
  - intros x. unfold sortItineraries. apply sortBy_stable.
    intros y z Hy Hz. apply cmpItinerary_ranksBefore.
    unfold itineraryScore in Hy, Hz. unfold ranksBefore.
    injection Hy as ? ? ?. injection Hz as ? ? ?. lia.
Qed.

(** ** Where scheduled instances come from *)

Lemma resolveMovie_Some (ms : list Movie) (k : string) (m : Movie) :
  resolveMovie ms k = Some m → m ∈ ms ∧ m_id m = k.
Proof.
  unfold resolveMovie. intros Hlast.
  apply last_Some_elem_of, list_elem_of_filter in Hlast. tauto.
Qed.

Lemma scheduleShow_from (parse : string → option Z) (state : AppState)
    (st : Showtime) (s : ScheduledShow) :
  st ∈ showtimes state →
  scheduleShow parse (movieMap (movies state)) st = Some s →
  scheduledFrom parse state s.
Proof.
  intros Hst. rewrite scheduleShow_scheduledInstance.
  unfold scheduledInstance.
  destruct (resolveMovie (movies state) (st_movieId st)) as [m|] eqn:Hm;
    [|done].
  destruct (parse (st_startLocal st)) as [start|] eqn:Hp; [|done].
  intros [= <-]. apply resolveMovie_Some in Hm as [Hin Hid].
  exists st, m. simpl. by repeat split.
Qed.

Lemma buildScheduledShows_from (parse : string → option Z)
    (state : AppState) (s : ScheduledShow) :
  s ∈ buildScheduledShows parse state → scheduledFrom parse state s.
Proof.
  rewrite buildScheduledShows_Permutation.
  intros (st & Hst & Hs)%list_elem_of_omap. by eapply scheduleShow_from.
Qed.

Lemma length_omap_le {A B : Type} (f : A → option B) (l : list A) :
  (length (omap f l) ≤ length l)%nat.
Proof.
  induction l as [|x l IH]; simpl; [done|].
  destruct (f x); simpl; [apply le_n_S|apply Nat.le_le_succ_r]; exact IH.
Qed.

Lemma buildScheduledShows_length (parse : string → option Z)
    (state : AppState) :
  (length (buildScheduledShows parse state) ≤ length (showtimes state))%nat.
Proof.
  unfold buildScheduledShows. rewrite sortBy_length. apply length_omap_le.
Qed.

(** X6.  Every scheduled instance carries the identity, movie and theater
    of one showtime entry of the input whose start parsed, and ends that
    movie's runtime after it starts, the movie being a listed one; so
    there are never more instances than entries. *)
Theorem buildScheduledShows_provenance (parse : string → option Z)
    (state : AppState) :
  Forall (scheduledFrom parse state) (buildScheduledShows parse state)
  ∧ (length (buildScheduledShows parse state)
     ≤ length (showtimes state))%nat.
Proof.
  split; [|apply buildScheduledShows_length].
  apply Forall_forall. intros s. apply buildScheduledShows_from.
Qed.

(** X7.  When every entry refers to a listed movie and has a start that
    parses, the builder drops nothing: one instance per entry, with the
    same identities. *)
Theorem buildScheduledShows_keeps_all (parse : string → option Z)
    (state : AppState) :
  (∀ st, st ∈ showtimes state →
     (∃ m, m ∈ movies state ∧ m_id m = st_movieId st)
     ∧ is_Some (parse (st_startLocal st))) →
  length (buildScheduledShows parse state) = length (showtimes state)
  ∧ showtimeId <$> buildScheduledShows parse state
    ≡ₚ st_id <$> showtimes state.
Proof.
  intros Hall.
  assert (Hsome : ∀ st, st ∈ showtimes state →
            ∃ s, scheduleShow parse (movieMap (movies state)) st = Some s
                 ∧ showtimeId s = st_id st).
  { intros st Hst. destruct (Hall st Hst) as [(m & Hm & Hid) [t Ht]].
    rewrite scheduleShow_scheduledInstance. unfold scheduledInstance.
    destruct (resolveMovie (movies state) (st_movieId st)) as [m'|] eqn:Hr.
    - rewrite Ht. eexists. split; [reflexivity|done].
    - exfalso. by eapply (proj1 (resolveMovie_None _ _) Hr). }
  assert (Hids : showtimeId <$> omap (scheduleShow parse
                    (movieMap (movies state))) (showtimes state)
                 = st_id <$> showtimes state).
  { induction (showtimes state) as [|st l IH]; simpl; [done|].
    destruct (Hsome st) as (s & -> & Hs); [left|]. simpl. rewrite Hs.
    f_equal. apply IH.
    - intros st' Hst'. apply Hall. by right.
    - intros st' Hst'. apply Hsome. by right. }
  split.
  - rewrite <- (length_fmap showtimeId), buildScheduledShows_Permutation,
      Hids. apply length_fmap.
  - by rewrite buildScheduledShows_Permutation, Hids.
Qed.

Lemma buildScheduledShows_keeps_all_witness :
  length (buildScheduledShows isoLocalUtc detourState) = 7%nat.
Proof.
  assert (H : ∀ st, st ∈ showtimes detourState →
            (∃ m, m ∈ movies detourState ∧ m_id m = st_movieId st)
            ∧ is_Some (isoLocalUtc (st_startLocal st))).
  { intros st Hst. unfold detourState in Hst. simpl in Hst.
    repeat (apply elem_of_cons in Hst as [->|Hst];
            [split; [apply Exists_exists, (bool_decide_unpack _);
                     vm_compute; exact I|by eexists]|]).
    by apply elem_of_nil in Hst. }
  exact (proj1 (buildScheduledShows_keeps_all isoLocalUtc detourState H)).
Defined.

(** ** What a returned itinerary looks like *)

Lemma showPoints_bounds (movieById : gmap string Movie)
    (s : ScheduledShow) :
  0 <= showPoints movieById s <= 99999.
Proof.
  unfold showPoints. destruct (movieById !! movieId s) as [m|]; [|lia].
  unfold moviePreferencePoints, clampInt. destruct (m_rank m); lia.
Qed.

Lemma chainPoints_bounds (movieById : gmap string Movie)
    (l : list ScheduledShow) :
  0 <= chainPoints movieById l <= 99999 * Z.of_nat (length l).
Proof.
  unfold chainPoints. induction l as [|s l IH]; simpl length; simpl foldr;
    [lia|].
  pose proof (showPoints_bounds movieById s). lia.
Qed.

Lemma showPoints_unranked (ms : list Movie) (s : ScheduledShow) :
  Forall (λ m, m_rank m = None) ms → showPoints (movieMap ms) s = 0.
Proof.
  intros Hall. unfold showPoints. rewrite movieMap_lookup.
  destruct (resolveMovie ms (movieId s)) as [m|] eqn:Hm; [|done].
  apply resolveMovie_Some in Hm as [Hin _].
  unfold moviePreferencePoints.
  by rewrite (proj1 (Forall_forall _ _) Hall m Hin).
Qed.

Lemma chainPoints_unranked (ms : list Movie) (l : list ScheduledShow) :
  Forall (λ m, m_rank m = None) ms → chainPoints (movieMap ms) l = 0.
Proof.
  intros Hall. unfold chainPoints.
  induction l as [|s l IH]; simpl; [done|].
  rewrite IH, (showPoints_unranked ms s Hall). done.
Qed.

Lemma scheduleShow_movieMap_nil (parse : string → option Z)
    (l : list Showtime) :
  omap (scheduleShow parse (movieMap [])) l = [].
Proof.
  induction l as [|st l IH]; simpl; [done|].
  unfold scheduleShow at 1. unfold movieMap at 1. simpl.
  rewrite lookup_empty. exact IH.
Qed.

(** X8.  With no movie or no showtime entry nothing is scheduled and
    [generateItineraries] returns the empty list. *)
Theorem generateItineraries_empty_input (parse : string → option Z)
    (state : AppState) :
  movies state = [] ∨ showtimes state = [] →
  buildScheduledShows parse state = []
  ∧ generateItineraries parse state = Some [].
Proof.
  intros Hempty.
  assert (Hnil : buildScheduledShows parse state = []).
  { unfold buildScheduledShows. destruct Hempty as [-> | ->]; [|done].
    by rewrite scheduleShow_movieMap_nil. }
  split; [done|]. unfold generateItineraries. by rewrite Hnil.
Qed.

Lemma generateItineraries_empty_input_witness :
  generateItineraries isoLocalUtc (deleteMovie "m1" (soloState 20 200))
  = Some [].
Proof.
  apply (generateItineraries_empty_input isoLocalUtc
           (deleteMovie "m1" (soloState 20 200))).
  left. vm_compute. reflexivity.
Defined.

(** X9.  Every returned itinerary has a first and a last show, its
    [finishMs] is the end of the last show, its [movieCount] is the
    number of its shows (at least 1), and each of its shows is one of the
    scheduled instances. *)
Theorem generateItineraries_shape (parse : string → option Z)
    (state : AppState) :
  ∃ its,
    generateItineraries parse state = Some its
    ∧ Forall (λ it,
        is_Some (head (shows it))
        ∧ (∃ lastShow, last (shows it) = Some lastShow
                       ∧ finishMs it = endMs lastShow)
        ∧ movieCount it = Z.of_nat (length (shows it))
        ∧ 1 <= movieCount it
        ∧ Forall (λ s, s ∈ buildScheduledShows parse state) (shows it))
      its.
Proof.
  destruct (generateItineraries_eq parse state)
    as (finished & _ & Hok & _ & _ & _ & ->).
  eexists; split; [done|].
  apply Forall_slice0, Forall_sortBy.
  eapply Forall_impl; [exact Hok|].
  intros it [[Hne _ _ _ Hin] _ Hcount Hfinish].
  destruct (shows it) as [|s l] eqn:Hshows; [done|].
  split; [by eexists|]. split.
  - destruct (last (s :: l)) as [lastShow|] eqn:Hlast.
    + exists lastShow. split; [done|]. rewrite Hfinish.
      unfold lastEndMs. by rewrite Hlast.
    + by apply last_None in Hlast.
  - split; [done|]. split; [|done]. rewrite Hcount. simpl length. lia.
Qed.

(** X10.  The preference score of a returned itinerary is the sum of the
    points of its shows' movies; it lies between 0 and 99999 times the
    movie count. *)
Theorem generateItineraries_score (parse : string → option Z)
    (state : AppState) :
  ∃ its,
    generateItineraries parse state = Some its
    ∧ Forall (λ it,
        preferenceScore it
        = chainPoints (movieMap (movies state)) (shows it)
        ∧ 0 <= preferenceScore it <= 99999 * movieCount it) its.
Proof.
  destruct (generateItineraries_eq parse state)
    as (finished & _ & Hok & _ & _ & _ & ->).
  eexists; split; [done|].
  apply Forall_slice0, Forall_sortBy.
  eapply Forall_impl; [exact Hok|].
  intros it [_ Hscore Hcount _]. split; [done|].
  rewrite Hscore, Hcount. apply chainPoints_bounds.
Qed.

(** X11.  When no movie is ranked every itinerary scores 0, so the
    result is ordered by movie count, largest first, and by earlier
    finish among equal counts. *)
Theorem generateItineraries_unranked (parse : string → option Z)
    (state : AppState) :
  Forall (λ m, m_rank m = None) (movies state) →
  ∃ its,
    generateItineraries parse state = Some its
    ∧ Forall (λ it, preferenceScore it = 0) its
    ∧ StronglySorted
        (λ a b, movieCount b < movieCount a
                ∨ (movieCount a = movieCount b ∧ finishMs a <= finishMs b))
        its.
Proof.
  intros Hall.
  destruct (generateItineraries_eq parse state)
    as (finished & _ & Hok & _ & _ & _ & ->).
  eexists; split; [done|].
  assert (Hzero : Forall (λ it, preferenceScore it = 0)
            (slice0 (sortItineraries finished)
               (clampInt (maxResults (settings state)) 1 200))).
  { apply Forall_slice0, Forall_sortBy.
    eapply Forall_impl; [exact Hok|].
    intros it [_ Hscore _ _]. rewrite Hscore.
    by apply chainPoints_unranked. }
  split; [done|].
  assert (Hsorted : StronglySorted ranksBefore
            (slice0 (sortItineraries finished)
               (clampInt (maxResults (settings state)) 1 200))).
  { unfold slice0. apply StronglySorted_take, sortItineraries_sorted. }
  revert Hzero Hsorted.
  generalize (slice0 (sortItineraries finished)
                (clampInt (maxResults (settings state)) 1 200)).
  intros l Hzero Hsorted.
  induction Hsorted as [|a l Hl IH Ha]; [constructor|].
  apply Forall_cons in Hzero as [Ha0 Hzero].
  constructor; [by apply IH|].
  apply Forall_forall. intros b Hb.
  pose proof (proj1 (Forall_forall _ _) Ha b Hb) as Hab.
  pose proof (proj1 (Forall_forall _ _) Hzero b Hb) as Hb0.
  unfold ranksBefore in Hab. simpl in Hb0. lia.
Qed.

Lemma generateItineraries_unranked_witness :
  ∃ its,
    generateItineraries isoLocalUtc (pairState 0 15 "t1" "2024-03-01T11:40")
    = Some its
    ∧ Forall (λ it, preferenceScore it = 0) its.
Proof.
  destruct (generateItineraries_unranked isoLocalUtc
              (pairState 0 15 "t1" "2024-03-01T11:40"))
    as (its & Hits & Hzero & _); [repeat constructor|].
  exists its. by split.
Defined.

Lemma NoDup_fmap_length_le {A B : Type} (f : A → B)
    (l : list A) (k : list B) :
  NoDup (f <$> l) → (∀ x, x ∈ l → f x ∈ k) →
  (length l ≤ length k)%nat.
Proof.
  intros Hdup Hin. rewrite <- (length_fmap f l).
  apply submseteq_length, NoDup_submseteq; [done|].
  intros y (x & -> & Hx)%list_elem_of_fmap. by apply Hin.
Qed.

(** X12.  No returned itinerary has more shows than there are movies, nor
    more than there are showtime entries. *)
Theorem generateItineraries_count_bounds (parse : string → option Z)
    (state : AppState) :
  ∃ its,
    generateItineraries parse state = Some its
    ∧ Forall (λ it,
        (length (shows it) ≤ length (movies state))%nat
        ∧ (length (shows it) ≤ length (showtimes state))%nat) its.
Proof.
  destruct (generateItineraries_eq parse state)
    as (finished & _ & Hok & _ & _ & _ & ->).
  eexists; split; [done|].
  apply Forall_slice0, Forall_sortBy.
  eapply Forall_impl; [exact Hok|].
  intros it [[_ _ Hm Hs Hin] _ _ _].
  assert (Hfrom : ∀ s, s ∈ shows it → scheduledFrom parse state s).
  { intros s Hs'. apply buildScheduledShows_from.
    by apply (proj1 (Forall_forall _ _) Hin). }
  split.
  - rewrite <- (length_fmap m_id (movies state)).
    apply (NoDup_fmap_length_le movieId); [done|].
    intros s Hs'.
    destruct (Hfrom s Hs') as (st & m & _ & Hmin & _ & -> & _ & <- & _).
    by apply list_elem_of_fmap_2.
  - rewrite <- (length_fmap st_id (showtimes state)).
    apply (NoDup_fmap_length_le showtimeId); [done|].
    intros s Hs'.
    destruct (Hfrom s Hs') as (st & m & Hst & _ & -> & _).
    by apply list_elem_of_fmap_2.
Qed.

(** ** The maximum result count *)

Lemma clampInt_idem (n : Z) :
  clampInt (clampInt n 1 200) 1 200 = clampInt n 1 200.
Proof. unfold clampInt. lia. Qed.

Lemma take_prefix_le {A : Type} (l : list A) (k1 k2 : nat) :
  (k1 ≤ k2)%nat → take k1 l `prefix_of` take k2 l.
Proof.
  intros Hle. replace k1 with (k1 `min` k2)%nat by lia.
  rewrite <- take_take. apply prefix_take.
Qed.

Lemma slice0_prefix_le {A : Type} (l : list A) (e1 e2 : Z) :
  0 <= e1 <= e2 → slice0 l e1 `prefix_of` slice0 l e2.
Proof.
  intros He. unfold slice0.
  destruct (e1 <? 0) eqn:E1; [apply Z.ltb_lt in E1; lia|].
  destruct (e2 <? 0) eqn:E2; [apply Z.ltb_lt in E2; lia|].
  apply take_prefix_le. lia.
Qed.

(** X13.  Raising the maximum result count only appends: the result for
    [K] is a prefix of the result for any [K' >= K].  Counts below 1 act
    as 1 and counts above 200 as 200. *)
Theorem generateItineraries_maxResults (parse : string → option Z)
    (state : AppState) (K K' : Z) :
  generateItineraries parse (withMaxResults state K)
  = generateItineraries parse (withMaxResults state (clampInt K 1 200))
  ∧ (K <= K' →
     ∃ its its',
       generateItineraries parse (withMaxResults state K) = Some its
       ∧ generateItineraries parse (withMaxResults state K') = Some its'
       ∧ its `prefix_of` its').
Proof.
  split.
  - unfold generateItineraries. simpl.
    change (buildScheduledShows parse (withMaxResults state ?k))
      with (buildScheduledShows parse state).
    change (finishedItineraries parse (withMaxResults state ?k))
      with (finishedItineraries parse state).
    by rewrite clampInt_idem.
  - intros HK.
    destruct (generateItineraries_eq parse (withMaxResults state K))
      as (f & Hf & _ & _ & _ & _ & ->).
    destruct (generateItineraries_eq parse (withMaxResults state K'))
      as (f' & Hf' & _ & _ & _ & _ & ->).
    change (finishedItineraries parse (withMaxResults state K'))
      with (finishedItineraries parse (withMaxResults state K)) in Hf'.
    rewrite Hf in Hf'. injection Hf' as <-.
    eexists _, _. split; [done|]. split; [done|].
    apply slice0_prefix_le. simpl. unfold clampInt. lia.
Qed.

Lemma generateItineraries_maxResults_witness :
  ∃ its its',
    generateItineraries isoLocalUtc (withMaxResults detourState 2) = Some its
    ∧ generateItineraries isoLocalUtc (withMaxResults detourState 5)
      = Some its'
    ∧ its `prefix_of` its'.
Proof.
  apply (proj2 (generateItineraries_maxResults isoLocalUtc detourState 2 5)).
  lia.
Defined.

(** ** Deleting from the state *)

Section SortFilter.
Context {A : Type} (cmp : A → A → Z).
Hypothesis cmp_total : ∀ a b, 0 < cmp a b → cmp b a <= 0.
Hypothesis cmp_trans : ∀ a b c, cmp a b <= 0 → cmp b c <= 0 → cmp a c <= 0.
Context (P : A → Prop) `{!∀ x, Decision (P x)}.

Lemma insertBy_head (x : A) (l : list A) :
  Forall (λ z, cmp x z <= 0) l → insertBy cmp x l = x :: l.
Proof.
  destruct 1 as [|y l Hy _]; simpl; [done|].
  apply Z.leb_le in Hy. by rewrite Hy.
Qed.

Lemma insertBy_filter_sorted (x : A) (l : list A) :
  StronglySorted (λ a b, cmp a b <= 0) l →
  filter P (insertBy cmp x l)
  = if decide (P x) then insertBy cmp x (filter P l) else filter P l.
Proof.
  induction 1 as [|y l Hl IH Hy]; simpl.
  { rewrite filter_cons. by destruct (decide (P x)). }
  destruct (cmp x y <=? 0) eqn:Hxy.
  - apply Z.leb_le in Hxy. rewrite filter_cons.
    destruct (decide (P x)); [|done].
    symmetry. apply insertBy_head.
    apply Forall_forall. intros z Hz%list_elem_of_filter.
    destruct Hz as [_ [->|Hz]%elem_of_cons]; [done|].
    eapply cmp_trans; [exact Hxy|].
    by apply (proj1 (Forall_forall _ _) Hy).
  - rewrite (filter_cons _ y), IH, (filter_cons _ y).
    destruct (decide (P x)), (decide (P y)); simpl; try done.
    by rewrite Hxy.
Qed.

(** Sorting commutes with filtering. *)
Lemma sortBy_filter (l : list A) :
  sortBy cmp (filter P l) = filter P (sortBy cmp l).
Proof.
  induction l as [|x l IH]; simpl; [done|].
  rewrite insertBy_filter_sorted by (by apply sortBy_StronglySorted).
  rewrite filter_cons. destruct (decide (P x)); simpl; by rewrite IH.
Qed.

End SortFilter.

Lemma omap_filter {A B : Type} (f f' : A → option B)
    (Q : A → Prop) `{!∀ x, Decision (Q x)}
    (P : B → Prop) `{!∀ y, Decision (P y)} (l : list A) :
  (∀ x, x ∈ l → Q x → f' x = f x) →
  (∀ x y, x ∈ l → f x = Some y → (P y ↔ Q x)) →
  omap f' (filter Q l) = filter P (omap f l).
Proof.
  induction l as [|x l IH]; intros Hf HP; simpl; [done|].
  assert (IH' : omap f' (filter Q l) = filter P (omap f l)).
  { apply IH; intros; [apply Hf|eapply HP]; try done; by right. }
  rewrite filter_cons. destruct (decide (Q x)) as [Hq|Hq]; simpl.
  - rewrite (Hf x) by (done || left).
    destruct (f x) as [y|] eqn:Hy; [|exact IH'].
    rewrite filter_cons_True by (eapply HP; [left|done|done]).
    f_equal. exact IH'.
  - destruct (f x) as [y|] eqn:Hy; [|exact IH'].
    rewrite filter_cons_False; [exact IH'|].
    intros Hp. apply Hq. eapply HP; [left|done|done].
Qed.

Lemma scheduleShow_fields (parse : string → option Z)
    (movieById : gmap string Movie) (st : Showtime) (s : ScheduledShow) :
  scheduleShow parse movieById st = Some s →
  showtimeId s = st_id st ∧ movieId s = st_movieId st
  ∧ theaterId s = st_theaterId st.
Proof.
  unfold scheduleShow.
  destruct (movieById !! st_movieId st); [|done].
  destruct (parseLocalDateTimeToMs parse (st_startLocal st)); [|done].
  by intros [= <-].
Qed.

Lemma resolveMovie_filter_ne (ms : list Movie) (id k : string) :
  k ≠ id →
  resolveMovie (filter (λ m, m_id m ≠ id) ms) k = resolveMovie ms k.
Proof.
  intros Hne. unfold resolveMovie. f_equal.
  induction ms as [|m ms IH]; [done|].
  rewrite (filter_cons (λ m, m_id m ≠ id)).
  destruct (decide (m_id m ≠ id)) as [Hm|Hm].
  - rewrite !filter_cons, IH. done.
  - rewrite IH. rewrite filter_cons_False; [done|].
    intros Hk. apply Hm. congruence.
Qed.

Lemma scheduleShow_deleteMovie (parse : string → option Z)
    (ms : list Movie) (id : string) (st : Showtime) :
  st_movieId st ≠ id →
  scheduleShow parse (movieMap (filter (λ m, m_id m ≠ id) ms)) st
  = scheduleShow parse (movieMap ms) st.
Proof.
  intros Hne. unfold scheduleShow.
  by rewrite !movieMap_lookup, resolveMovie_filter_ne.
Qed.

Lemma buildScheduledShows_deleteMovie (parse : string → option Z)
    (id : string) (state : AppState) :
  buildScheduledShows parse (deleteMovie id state)
  = filter (λ s, movieId s ≠ id) (buildScheduledShows parse state).
Proof.
  unfold buildScheduledShows, deleteMovie. simpl.
  rewrite <- (sortBy_filter cmpStart cmpStart_total cmpStart_trans).
  f_equal. apply omap_filter.
  - intros st _ Hne. by apply scheduleShow_deleteMovie.
  - intros st s _ Hs. apply scheduleShow_fields in Hs as (_ & -> & _). done.
Qed.

Lemma buildScheduledShows_deleteTheater (parse : string → option Z)
    (id : string) (state : AppState) :
  buildScheduledShows parse (deleteTheater id state)
  = filter (λ s, theaterId s ≠ id) (buildScheduledShows parse state).
Proof.
  unfold buildScheduledShows, deleteTheater. simpl.
  rewrite <- (sortBy_filter cmpStart cmpStart_total cmpStart_trans).
  f_equal. apply omap_filter.
  - done.
  - intros st s _ Hs. apply scheduleShow_fields in Hs as (_ & _ & ->). done.
Qed.

Lemma buildScheduledShows_deleteShowtime (parse : string → option Z)
    (id : string) (state : AppState) :
  buildScheduledShows parse (deleteShowtime id state)
  = filter (λ s, showtimeId s ≠ id) (buildScheduledShows parse state).
Proof.
  unfold buildScheduledShows, deleteShowtime. simpl.
  rewrite <- (sortBy_filter cmpStart cmpStart_total cmpStart_trans).
  f_equal. apply omap_filter.
  - done.
  - intros st s _ Hs. apply scheduleShow_fields in Hs as (-> & _). done.
Qed.

Lemma generateItineraries_shows_in (parse : string → option Z)
    (state : AppState) (P : ScheduledShow → Prop) :
  Forall P (buildScheduledShows parse state) →
  ∃ its,
    generateItineraries parse state = Some its
    ∧ Forall (λ it, Forall P (shows it)) its.
Proof.
  intros HP.
  destruct (generateItineraries_eq parse state)
    as (finished & _ & Hok & _ & _ & _ & ->).
  eexists; split; [done|].
  apply Forall_slice0, Forall_sortBy.
  eapply Forall_impl; [exact Hok|].
  intros it [[_ _ _ _ Hin] _ _ _].
  eapply Forall_impl; [exact Hin|].
  intros s Hs. by apply (proj1 (Forall_forall _ _) HP).
Qed.

(** X14.  [deleteMovie] takes exactly the instances of that movie out of
    the schedule, leaving the others as they were, and no itinerary
    generated afterwards shows the movie. *)
Theorem deleteMovie_schedule (parse : string → option Z) (id : string)
    (state : AppState) :
  buildScheduledShows parse (deleteMovie id state)
  = filter (λ s, movieId s ≠ id) (buildScheduledShows parse state)
  ∧ ∃ its,
      generateItineraries parse (deleteMovie id state) = Some its
      ∧ Forall (λ it, Forall (λ s, movieId s ≠ id) (shows it)) its.
Proof.
  split; [apply buildScheduledShows_deleteMovie|].
  apply generateItineraries_shows_in.
  rewrite buildScheduledShows_deleteMovie.
  apply Forall_forall. by intros s [Hs _]%list_elem_of_filter.
Qed.

(** X15.  [deleteTheater] takes exactly the instances at that theater out
    of the schedule, and no itinerary generated afterwards visits it. *)
Theorem deleteTheater_schedule (parse : string → option Z) (id : string)
    (state : AppState) :
  buildScheduledShows parse (deleteTheater id state)
  = filter (λ s, theaterId s ≠ id) (buildScheduledShows parse state)
  ∧ ∃ its,
      generateItineraries parse (deleteTheater id state) = Some its
      ∧ Forall (λ it, Forall (λ s, theaterId s ≠ id) (shows it)) its.
Proof.
  split; [apply buildScheduledShows_deleteTheater|].
  apply generateItineraries_shows_in.
  rewrite buildScheduledShows_deleteTheater.
  apply Forall_forall. by intros s [Hs _]%list_elem_of_filter.
Qed.

(** X16.  [deleteShowtime] takes exactly the instances with that identity
    out of the schedule, and no itinerary generated afterwards contains
    it. *)
Theorem deleteShowtime_schedule (parse : string → option Z) (id : string)
    (state : AppState) :
  buildScheduledShows parse (deleteShowtime id state)
  = filter (λ s, showtimeId s ≠ id) (buildScheduledShows parse state)
  ∧ ∃ its,
      generateItineraries parse (deleteShowtime id state) = Some its
      ∧ Forall (λ it, Forall (λ s, showtimeId s ≠ id) (shows it)) its.
Proof.
  split; [apply buildScheduledShows_deleteShowtime|].
  apply generateItineraries_shows_in.
  rewrite buildScheduledShows_deleteShowtime.
  apply Forall_forall. by intros s [Hs _]%list_elem_of_filter.
Qed.

(** ** The updaters keep the state coherent *)

Lemma filter_snoc_out {A : Type} (P : A → Prop) `{!∀ x, Decision (P x)}
    (l : list A) (y : A) :
  (∀ x, x ∈ l → P x) → ¬ P y → filter P (l ++ [y]) = l.
Proof.
  intros Hl Hy. rewrite filter_app, filter_cons_False, filter_nil by done.
  rewrite app_nil_r. induction l as [|x l IH]; [done|].
  rewrite filter_cons_True by (apply Hl; left).
  f_equal. apply IH. intros z Hz. apply Hl. by right.
Qed.

(** X17.  If every showtime entry refers to a listed movie and a listed
    theater, it still does after any deletion (deleting a movie or a
    theater takes its showtimes along), after adding a movie or a
    theater, after a reset, and after adding a showtime for a listed
    movie and theater. *)
Theorem wellReferenced_kept (trim : string → string) (s : AppState) :
  wellReferenced s →
  (∀ id, wellReferenced (deleteMovie id s))
  ∧ (∀ id, wellReferenced (deleteTheater id s))
  ∧ (∀ id, wellReferenced (deleteShowtime id s))
  ∧ (∀ newId title runtime,
       wellReferenced (addMovie trim newId title runtime s))
  ∧ (∀ newId name, wellReferenced (addTheater trim newId name s))
  ∧ wellReferenced (resetAll s)
  ∧ (∀ newId movieId theaterId startLocal,
       (∃ m, m ∈ movies s ∧ m_id m = movieId) →
       (∃ t, t ∈ theaters s ∧ th_id t = theaterId) →
       wellReferenced (addShowtime newId movieId theaterId startLocal s)).
Proof.
  intros Hs. unfold wellReferenced in *.
  split; [|split; [|split; [|split; [|split; [|split]]]]].
  - intros id st [Hne Hst]%list_elem_of_filter.
    destruct (Hs st Hst) as [(m & Hm & Hid) Ht]. split; [|done].
    exists m. split; [|done]. simpl. apply list_elem_of_filter.
    split; [congruence|done].
  - intros id st [Hne Hst]%list_elem_of_filter.
    destruct (Hs st Hst) as [Hm (t & Ht & Hid)]. split; [done|].
    exists t. split; [|done]. simpl. apply list_elem_of_filter.
    split; [congruence|done].
  - intros id st [Hne Hst]%list_elem_of_filter. by apply Hs.
  - intros newId title runtime st Hst.
    destruct (Hs st Hst) as [(m & Hm & Hid) Ht]. split; [|done].
    exists m. split; [|done]. simpl. apply elem_of_app. by left.
  - intros newId name st Hst.
    destruct (Hs st Hst) as [Hm (t & Ht & Hid)]. split; [done|].
    exists t. split; [|done]. simpl. apply elem_of_app. by left.
  - by intros st Hst%elem_of_nil.
  - intros newId movieId theaterId startLocal Hm Ht st Hst. simpl in Hst.
    apply elem_of_app in Hst as [Hst|Hst]; [by apply Hs|].
    apply list_elem_of_singleton in Hst as ->. done.
Qed.

Lemma wellReferenced_kept_witness :
  wellReferenced (deleteTheater "t1" (soloState 20 200))
  ∧ wellReferenced (addShowtime "s9" "m1" "t1" "2024-03-01T14:00"
                      (soloState 20 200)).
Proof.
  assert (Hsolo : wellReferenced (soloState 20 200)).
  { intros st Hst. unfold soloState in Hst. simpl in Hst.
    apply list_elem_of_singleton in Hst as ->.
    split; eexists; (split; [left|reflexivity]). }
  destruct (wellReferenced_kept (λ x, x) (soloState 20 200) Hsolo)
    as (_ & Hth & _ & _ & _ & _ & Hadd).
  split; [apply Hth|].
  apply Hadd; eexists; (split; [left|reflexivity]).
Defined.

(** X18.  Adding a record under an identity not in use and deleting it
    again gives back the state: for a showtime entry; for a movie that no
    entry refers to; for a theater that no entry is assigned to. *)
Theorem add_delete_roundtrip (trim : string → string) (s : AppState) :
  (∀ newId movieId theaterId startLocal,
     (∀ st, st ∈ showtimes s → st_id st ≠ newId) →
     deleteShowtime newId
       (addShowtime newId movieId theaterId startLocal s) = s)
  ∧ (∀ newId title runtime,
       (∀ m, m ∈ movies s → m_id m ≠ newId) →
       (∀ st, st ∈ showtimes s → st_movieId st ≠ newId) →
       deleteMovie newId (addMovie trim newId title runtime s) = s)
  ∧ (∀ newId name,
       (∀ t, t ∈ theaters s → th_id t ≠ newId) →
       (∀ st, st ∈ showtimes s → st_theaterId st ≠ newId) →
       deleteTheater newId (addTheater trim newId name s) = s).
Proof.
  destruct s as [set ms ths sts]. simpl.
  split; [|split].
  - intros newId movieId theaterId startLocal Hfresh.
    unfold deleteShowtime, addShowtime. simpl.
    rewrite filter_snoc_out; [done|done|]. simpl. by intros H.
  - intros newId title runtime Hfresh Hunused.
    unfold deleteMovie, addMovie. simpl.
    rewrite filter_snoc_out; [|done|simpl; by intros H].
    f_equal. induction sts as [|st sts IH]; [done|].
    rewrite filter_cons_True by (apply Hunused; left).
    f_equal. apply IH. intros st' Hst'. apply Hunused. by right.
  - intros newId name Hfresh Hunused.
    unfold deleteTheater, addTheater. simpl.
    rewrite filter_snoc_out; [|done|simpl; by intros H].
    f_equal. induction sts as [|st sts IH]; [done|].
    rewrite filter_cons_True by (apply Hunused; left).
    f_equal. apply IH. intros st' Hst'. apply Hunused. by right.
Qed.

Lemma add_delete_roundtrip_witness :
  deleteShowtime "s9"
    (addShowtime "s9" "m1" "t1" "2024-03-01T14:00" (soloState 20 200))
  = soloState 20 200.
Proof.
  apply (proj1 (add_delete_roundtrip (λ x, x) (soloState 20 200))).
  intros st Hst. unfold soloState in Hst. simpl in Hst.
  apply list_elem_of_singleton in Hst as ->. simpl. discriminate.
Defined.

(** ** Changes that leave the result alone *)

(** The search reads the movie table only to score scheduled shows. *)
Section SearchExt.
Variables (movieById movieById' : gmap string Movie).
Variable scheduled : list ScheduledShow.
Hypothesis same_points :
  ∀ s, s ∈ scheduled → showPoints movieById s = showPoints movieById' s.

Lemma initial_ext :
  initial movieById scheduled = initial movieById' scheduled.
Proof.
  unfold initial. apply imap_ext. intros i s Hs. simpl.
  rewrite same_points; [done|]. by eapply list_elem_of_lookup_2.
Qed.

Lemma expandFrom_ext (p : Partial) (costs : list Z) (k : nat)
    (candidates : list nat) :
  expandFrom movieById scheduled p costs k candidates
  = expandFrom movieById' scheduled p costs k candidates.
Proof.
  revert k. induction candidates as [|j cands IH]; intros k; simpl; [done|].
  destruct (scheduled !! j) as [b|] eqn:Hb; [|done].
  rewrite !IH. rewrite (same_points b) by (by eapply list_elem_of_lookup_2).
  done.
Qed.

Lemma expandAll_ext (nexts : list (list nat)) (travelCost : list (list Z))
    (beam : list Partial) :
  expandAll movieById scheduled nexts travelCost beam
  = expandAll movieById' scheduled nexts travelCost beam.
Proof.
  induction beam as [|p beam IH]; simpl; [done|].
  unfold expand. rewrite IH.
  destruct (nexts !! lastIdx p), (travelCost !! lastIdx p); try done.
  by rewrite expandFrom_ext.
Qed.

Lemma search_ext (nexts : list (list nat)) (travelCost : list (list Z))
    (W : Z) (steps : nat) (beam : list Partial)
    (acc : list Itinerary * gset string) :
  search movieById scheduled nexts travelCost W steps beam acc
  = search movieById' scheduled nexts travelCost W steps beam acc.
Proof.
  revert beam acc. induction steps as [|steps IH]; intros beam acc; simpl;
    [done|].
  destruct (finalizeAll beam acc); [|done].
  rewrite expandAll_ext.
  destruct (expandAll movieById' _ _ _ beam); [|done].
  destruct (length l =? 0)%nat; [done|]. apply IH.
Qed.

End SearchExt.

(** Two states with the same settings and the same schedule, whose movie
    tables score every scheduled show alike, give the same result. *)
Lemma generateItineraries_ext (parse : string → option Z)
    (s s' : AppState) :
  settings s' = settings s →
  buildScheduledShows parse s' = buildScheduledShows parse s →
  (∀ x, x ∈ buildScheduledShows parse s →
     showPoints (movieMap (movies s')) x = showPoints (movieMap (movies s)) x) →
  generateItineraries parse s' = generateItineraries parse s.
Proof.
  intros Hset Hsched Hpoints.
  unfold generateItineraries, finishedItineraries.
  rewrite Hset, Hsched.
  by rewrite (search_ext _ _ _ Hpoints), (initial_ext _ _ _ Hpoints).
Qed.

Lemma omap_ext_in {A B : Type} (f g : A → option B) (l : list A) :
  (∀ x, x ∈ l → f x = g x) → omap f l = omap g l.
Proof.
  induction l as [|x l IH]; intros H; simpl; [done|].
  rewrite (H x) by left.
  assert (IH' : omap f l = omap g l)
    by (apply IH; intros y Hy; apply H; by right).
  destruct (g x); [f_equal|]; exact IH'.
Qed.

Lemma resolveMovie_snoc_ne (ms : list Movie) (m : Movie) (k : string) :
  m_id m ≠ k → resolveMovie (ms ++ [m]) k = resolveMovie ms k.
Proof.
  intros Hne. unfold resolveMovie.
  by rewrite filter_app, filter_cons_False, filter_nil, app_nil_r.
Qed.

(** X19.  A movie added under an identity that no showtime entry refers
    to changes neither the schedule nor the itineraries; it enters
    unranked, with its runtime clamped into [[1, 600]]. *)
Theorem addMovie_frame (parse : string → option Z) (trim : string → string)
    (newId title : string) (runtime : Z) (s : AppState) :
  (∀ st, st ∈ showtimes s → st_movieId st ≠ newId) →
  buildScheduledShows parse (addMovie trim newId title runtime s)
  = buildScheduledShows parse s
  ∧ generateItineraries parse (addMovie trim newId title runtime s)
    = generateItineraries parse s
  ∧ ∃ m, last (movies (addMovie trim newId title runtime s)) = Some m
         ∧ m_id m = newId ∧ m_rank m = None
         ∧ 1 <= m_runtimeMins m <= 600.
Proof.
  intros Hunused.
  assert (Hsched : buildScheduledShows parse
                     (addMovie trim newId title runtime s)
                   = buildScheduledShows parse s).
  { unfold buildScheduledShows, addMovie. simpl. f_equal.
    apply omap_ext_in. intros st Hst. unfold scheduleShow.
    rewrite !movieMap_lookup, resolveMovie_snoc_ne; [done|].
    simpl. intros Heq. by apply (Hunused st Hst). }
  split; [done|]. split.
  - apply generateItineraries_ext; [done|done|].
    intros x Hx. apply buildScheduledShows_from in Hx
      as (st & m & Hst & _ & _ & Hmid & _).
    unfold showPoints, addMovie. simpl. rewrite !movieMap_lookup.
    rewrite resolveMovie_snoc_ne; [done|]. simpl. rewrite Hmid.
    intros Heq. by apply (Hunused st Hst).
  - unfold addMovie. simpl. rewrite last_snoc. eexists. split; [done|].
    simpl. split; [done|]. split; [done|]. unfold clampInt. lia.
Qed.

Lemma addMovie_frame_witness :
  generateItineraries isoLocalUtc
    (addMovie (λ x, x) "m9" "Newcomer" 9000 detourState)
  = generateItineraries isoLocalUtc detourState.
Proof.
  apply (addMovie_frame isoLocalUtc (λ x, x) "m9" "Newcomer" 9000
           detourState).
  intros st Hst. unfold detourState in Hst. simpl in Hst.
  repeat (apply elem_of_cons in Hst as [->|Hst]; [simpl; discriminate|]).
  by apply elem_of_nil in Hst.
Defined.

Lemma resolveMovie_fmap (f : Movie → Movie) (ms : list Movie) (k : string) :
  (∀ m, m_id (f m) = m_id m) →
  resolveMovie (f <$> ms) k = f <$> resolveMovie ms k.
Proof.
  intros Hid. unfold resolveMovie. rewrite <- fmap_last. f_equal.
  induction ms as [|m ms IH]; [done|].
  rewrite fmap_cons, !filter_cons, Hid.
  destruct (decide (m_id m = k)); by rewrite IH.
Qed.

(** X20.  An update of a movie that touches neither its identity nor its
    runtime leaves the schedule as it was; if it does not touch the rank
    either (a title change), the itineraries are the same too. *)
Theorem updateMovie_frame (parse : string → option Z) (id : string)
    (patch : MoviePatch) (s : AppState) :
  patch_id patch = None → patch_runtimeMins patch = None →
  buildScheduledShows parse (updateMovie id patch s)
  = buildScheduledShows parse s
  ∧ (patch_rank patch = None →
     generateItineraries parse (updateMovie id patch s)
     = generateItineraries parse s).
Proof.
  intros Hpid Hprt.
  set (f := λ m, if String.eqb (m_id m) id then applyMoviePatch m patch
                 else m).
  assert (Hid : ∀ m, m_id (f m) = m_id m).
  { intros m. unfold f, applyMoviePatch.
    destruct (String.eqb (m_id m) id); [|done]. simpl. by rewrite Hpid. }
  assert (Hrt : ∀ m, m_runtimeMins (f m) = m_runtimeMins m).
  { intros m. unfold f, applyMoviePatch.
    destruct (String.eqb (m_id m) id); [|done]. simpl. by rewrite Hprt. }
  assert (Hsched : buildScheduledShows parse (updateMovie id patch s)
                   = buildScheduledShows parse s).
  { unfold buildScheduledShows, updateMovie. simpl. fold f. f_equal.
    apply omap_ext_in. intros st _. unfold scheduleShow.
    rewrite !movieMap_lookup, (resolveMovie_fmap f) by done.
    destruct (resolveMovie (movies s) (st_movieId st)) as [m|]; simpl;
      [|done].
    by rewrite Hrt. }
  split; [done|]. intros Hprk.
  apply generateItineraries_ext; [done|done|].
  intros x _. unfold showPoints, updateMovie. simpl. fold f.
  rewrite !movieMap_lookup, (resolveMovie_fmap f) by done.
  destruct (resolveMovie (movies s) (movieId x)) as [m|]; simpl; [|done].
  unfold f, applyMoviePatch, moviePreferencePoints.
  destruct (String.eqb (m_id m) id); [|done]. simpl. by rewrite Hprk.
Qed.

Lemma updateMovie_frame_witness :
  buildScheduledShows isoLocalUtc
    (updateMovie "B" (mkMoviePatch None None None (Some (Some 7)))
       detourState)
  = buildScheduledShows isoLocalUtc detourState.
Proof.
  apply (updateMovie_frame isoLocalUtc "B"
           (mkMoviePatch None None None (Some (Some 7))) detourState);
    reflexivity.
Defined.

(** ** Travel minutes *)

Lemma canTransition_travel (a b : ScheduledShow) (X T : Z) :
  ok (canTransition a b X T) = true →
  travelAppliedMins (canTransition a b X T)
  = if decide (theaterId a = theaterId b) then 0 else T.
Proof.
  unfold canTransition. destruct (startMs b <? startMs a); [done|].
  simpl. intros _.
  destruct (String.eqb_spec (theaterId a) (theaterId b)); by case_decide.
Qed.

Lemma scanRow_cost (X T : Z) (a : ScheduledShow)
    (rest : list ScheduledShow) (j0 k j : nat) (c : Z) :
  (scanRow X T a j0 rest).1 !! k = Some j →
  (scanRow X T a j0 rest).2 !! k = Some c →
  ∃ b, (j0 ≤ j)%nat ∧ rest !! (j - j0)%nat = Some b
       ∧ c = if decide (theaterId a = theaterId b) then 0 else T.
Proof.
  revert j0 k. induction rest as [|b rest IH]; intros j0 k; simpl; [done|].
  assert (Hstep : ∀ k', (scanRow X T a (S j0) rest).1 !! k' = Some j →
            (scanRow X T a (S j0) rest).2 !! k' = Some c →
            ∃ b', (j0 ≤ j)%nat ∧ (b :: rest) !! (j - j0)%nat = Some b'
                  ∧ c = if decide (theaterId a = theaterId b') then 0
                        else T).
  { intros k' Hj Hc. destruct (IH _ _ Hj Hc) as (b' & Hle & Hb' & Hcost).
    exists b'. split; [lia|]. split; [|done].
    replace (j - j0)%nat with (S (j - S j0)) by lia. done. }
  destruct (ok (canTransition a b X T)) eqn:Hok; [|apply Hstep].
  destruct k as [|k]; simpl; [|apply Hstep].
  intros [= <-] [= <-]. exists b. rewrite Nat.sub_diag.
  split; [done|]. split; [done|]. by apply canTransition_travel.
Qed.

Lemma adjacency_cost (X T : Z) (scheduled : list ScheduledShow)
    (i k j : nat) (a : ScheduledShow) (candidates : list nat)
    (costs : list Z) (c : Z) :
  scheduled !! i = Some a →
  (adjacency X T scheduled).*1 !! i = Some candidates →
  (adjacency X T scheduled).*2 !! i = Some costs →
  candidates !! k = Some j → costs !! k = Some c →
  ∃ b, scheduled !! j = Some b
       ∧ c = if decide (theaterId a = theaterId b) then 0 else T.
Proof.
  unfold adjacency. intros Ha Hn Hc Hk Hcost.
  rewrite list_lookup_fmap, list_lookup_imap, Ha in Hn.
  rewrite list_lookup_fmap, list_lookup_imap, Ha in Hc.
  simpl in Hn, Hc. injection Hn as <-. injection Hc as <-.
  destruct (scanRow_cost _ _ _ _ _ _ _ _ Hk Hcost) as (b & Hle & Hb & ->).
  exists b. split; [|done].
  rewrite lookup_drop in Hb. rewrite <- Hb. f_equal. lia.
Qed.

Lemma travelOf_snoc (T : Z) (l : list ScheduledShow) (a b : ScheduledShow) :
  last l = Some a →
  travelOf T (l ++ [b])
  = travelOf T l + (if decide (theaterId a = theaterId b) then 0 else T).
Proof.
  induction l as [|x l IH]; [done|].
  destruct l as [|y l].
  - intros [= ->]. simpl. lia.
  - intros Hlast. rewrite last_cons_cons in Hlast.
    change (travelOf T ((x :: y :: l) ++ [b]))
      with ((if decide (theaterId x = theaterId y) then 0 else T)
            + travelOf T ((y :: l) ++ [b])).
    rewrite (IH Hlast). simpl. lia.
Qed.

Section Travel.
Variables (X T : Z) (movieById : gmap string Movie).
Variable scheduled : list ScheduledShow.

Local Abbreviation partial_ok' := (partial_ok X T movieById scheduled).
Local Abbreviation nexts := ((adjacency X T scheduled).*1).
Local Abbreviation travelCost := ((adjacency X T scheduled).*2).
Local Abbreviation travelled :=
  (λ p, p_totalTravelMins p = travelOf T (p_shows p)).
Local Abbreviation travelled_it :=
  (λ it, totalTravelMins it = travelOf T (shows it)).

Lemma expandFrom_travel (p : Partial) (a : ScheduledShow) (costs : list Z)
    (candidates : list nat) (k : nat) (out : list Partial) :
  last (p_shows p) = Some a → travelled p →
  (∀ k' j c, candidates !! k' = Some j → costs !! (k + k')%nat = Some c →
     ∃ b, scheduled !! j = Some b
          ∧ c = if decide (theaterId a = theaterId b) then 0 else T) →
  expandFrom movieById scheduled p costs k candidates = Some out →
  Forall travelled out.
Proof.
  intros Ha Hp. revert k out.
  induction candidates as [|j cands IH]; intros k out Hc; simpl.
  { by intros [= <-]. }
  assert (IH' : ∀ out', expandFrom movieById scheduled p costs (S k) cands
                        = Some out' → Forall travelled out').
  { intros out'. apply IH. intros k' j' c Hj' Hcost.
    apply (Hc (S k') j' c Hj'). by rewrite Nat.add_succ_r. }
  destruct (scheduled !! j) as [b|] eqn:Hb; [|done].
  destruct (decide _); [apply IH'|].
  destruct (decide _); [apply IH'|].
  destruct (costs !! k) as [c|] eqn:Hcost; [|done].
  destruct (expandFrom _ _ _ _ _ cands) as [rest|]; [|done].
  intros [= <-]. constructor; [|by apply IH'].
  simpl. rewrite (travelOf_snoc T _ a b Ha), Hp. f_equal.
  destruct (Hc 0%nat j c eq_refl) as (b' & Hb' & ->).
  { by rewrite Nat.add_0_r. }
  rewrite Hb in Hb'. by injection Hb' as <-.
Qed.

Lemma expandAll_travel (beam out : list Partial) :
  Forall partial_ok' beam → Forall travelled beam →
  expandAll movieById scheduled nexts travelCost beam = Some out →
  Forall travelled out.
Proof.
  intros Hok. revert out.
  induction Hok as [|p beam Hp _ IH]; intros out Htr; simpl.
  { by intros [= <-]. }
  apply Forall_cons in Htr as [Hptr Htr]. unfold expand.
  destruct (nexts !! lastIdx p) as [cands|] eqn:Hcands; [|done].
  destruct (travelCost !! lastIdx p) as [costs|] eqn:Hcosts; [|done].
  destruct (expandFrom _ _ _ _ _ cands) as [here|] eqn:Hhere; [|done].
  destruct (expandAll _ _ _ _ beam) as [rest|]; [|done].
  intros [= <-]. apply Forall_app. split; [|by apply IH].
  destruct (last (p_shows p)) as [a|] eqn:Ha.
  2:{ apply last_None in Ha. by destruct Hp as [[Hne _ _ _ _] _ _ _ _]. }
  eapply (expandFrom_travel p a); [done|done| |exact Hhere].
  intros k' j c Hj Hc. simpl in Hc.
  eapply adjacency_cost; [|exact Hcands|exact Hcosts|exact Hj|exact Hc].
  rewrite (partial_last _ _ _ _ _ Hp). exact Ha.
Qed.

Lemma finalizeAll_travel (beam : list Partial)
    (acc acc' : list Itinerary * gset string) :
  Forall travelled beam → Forall travelled_it acc.1 →
  finalizeAll beam acc = Some acc' → Forall travelled_it acc'.1.
Proof.
  intros Hbeam. revert acc.
  induction Hbeam as [|p beam Hp _ IH]; intros acc Hacc; simpl.
  { by intros [= <-]. }
  unfold finalize.
  destruct (last (p_shows p)) as [a|]; [|done]. simpl.
  destruct (decide _); [by apply IH|].
  apply IH. simpl. apply Forall_app. split; [done|].
  by constructor.
Qed.

Lemma search_travel (W : Z) (steps : nat) (beam : list Partial)
    (acc acc' : list Itinerary * gset string) :
  Forall partial_ok' beam → Forall travelled beam →
  Forall travelled_it acc.1 →
  search movieById scheduled nexts travelCost W steps beam acc = Some acc' →
  Forall travelled_it acc'.1.
Proof.
  revert beam acc.
  induction steps as [|steps IH]; intros beam acc Hok Htr Hacc; simpl.
  { by intros [= <-]. }
  destruct (finalizeAll beam acc) as [acc1|] eqn:Hfin; [|done].
  pose proof (finalizeAll_travel _ _ _ Htr Hacc Hfin) as Hacc1.
  destruct (expandAll_ok X T movieById scheduled nexts travelCost beam
              (adjacency_ok _ _ _) Hok) as (e & He & Heok).
  rewrite He. pose proof (expandAll_travel _ _ Hok Htr He) as Hetr.
  destruct (length e =? 0)%nat; [by intros [= <-]|].
  apply IH; [| |done].
  - by apply Forall_slice0, Forall_sortBy.
  - by apply Forall_slice0, Forall_sortBy.
Qed.

End Travel.

(** X21.  The total travel of a returned itinerary is the travel setting
    [T] once for each consecutive pair of shows at different theaters,
    and nothing for a pair in one theater. *)
Theorem generateItineraries_travel (parse : string → option Z)
    (state : AppState) :
  ∃ its,
    generateItineraries parse state = Some its
    ∧ Forall (λ it,
        totalTravelMins it
        = travelOf (travelMins (settings state)) (shows it)) its.
Proof.
  destruct (generateItineraries_eq parse state)
    as (finished & Hfin & _ & _ & _ & _ & ->).
  eexists; split; [done|].
  apply Forall_slice0, Forall_sortBy.
  unfold finishedItineraries in Hfin.
  destruct (search _ _ _ _ _ _ _ _) as [acc|] eqn:Hsearch; [|done].
  injection Hfin as <-.
  eapply search_travel; [| | |exact Hsearch].
  - apply initial_ok.
  - apply Forall_forall. intros p Hp. unfold initial in Hp.
    by apply elem_of_lookup_imap in Hp as (idx & s & -> & _).
  - constructor.
Qed.

(** ** Standalone shows *)

Lemma omap_scheduleShow_ids (parse : string → option Z)
    (movieById : gmap string Movie) (l : list Showtime) :
  showtimeId <$> omap (scheduleShow parse movieById) l
  `sublist_of` st_id <$> l.
Proof.
  induction l as [|st l IH]; simpl; [done|].
  destruct (scheduleShow parse movieById st) as [s|] eqn:Hs; simpl.
  - rewrite (scheduleShow_showtimeId _ _ _ _ Hs). by constructor.
  - by constructor.
Qed.

Lemma buildScheduledShows_NoDup (parse : string → option Z)
    (state : AppState) :
  NoDup (st_id <$> showtimes state) →
  NoDup (showtimeId <$> buildScheduledShows parse state).
Proof.
  intros Hdup. rewrite buildScheduledShows_Permutation.
  eapply sublist_NoDup; [exact Hdup|]. apply omap_scheduleShow_ids.
Qed.

Lemma finalize_prefix (p : Partial) (acc acc' : list Itinerary * gset string) :
  finalize p acc = Some acc' → acc.1 `prefix_of` acc'.1.
Proof.
  unfold finalize. destruct (last (p_shows p)); [|done]. simpl.
  destruct (decide _); intros [= <-]; [done|]. by apply prefix_app_r.
Qed.

Lemma finalizeAll_prefix (beam : list Partial)
    (acc acc' : list Itinerary * gset string) :
  finalizeAll beam acc = Some acc' → acc.1 `prefix_of` acc'.1.
Proof.
  revert acc. induction beam as [|p beam IH]; intros acc; simpl.
  { by intros [= <-]. }
  destruct (finalize p acc) as [acc1|] eqn:Hfin; [|done].
  intros Hall. etrans; [by eapply finalize_prefix|by apply IH].
Qed.

Lemma search_prefix (movieById : gmap string Movie)
    (scheduled : list ScheduledShow) (nexts : list (list nat))
    (travelCost : list (list Z)) (W : Z) (steps : nat)
    (beam : list Partial) (acc acc' : list Itinerary * gset string) :
  search movieById scheduled nexts travelCost W steps beam acc = Some acc' →
  acc.1 `prefix_of` acc'.1.
Proof.
  revert beam acc. induction steps as [|steps IH]; intros beam acc; simpl.
  { by intros [= <-]. }
  destruct (finalizeAll beam acc) as [acc1|] eqn:Hfin; [|done].
  apply finalizeAll_prefix in Hfin.
  destruct (expandAll _ _ _ _ beam) as [e|]; [|done].
  destruct (length e =? 0)%nat; [by intros [= <-]|].
  intros Hs. etrans; [exact Hfin|by eapply IH].
Qed.

(** A beam whose keys are new and pairwise distinct is recorded whole. *)
Lemma finalizeAll_fresh (beam : list Partial)
    (acc acc' : list Itinerary * gset string) :
  NoDup ((λ p, chainKey (p_shows p)) <$> beam) →
  (∀ p, p ∈ beam → chainKey (p_shows p) ∉ acc.2) →
  finalizeAll beam acc = Some acc' →
  ∀ p, p ∈ beam → ∃ it, it ∈ acc'.1 ∧ shows it = p_shows p.
Proof.
  revert acc. induction beam as [|q beam IH]; intros acc Hdup Hnew; simpl.
  { by intros _ p Hp%elem_of_nil. }
  rewrite fmap_cons in Hdup. apply NoDup_cons in Hdup as [Hq Hdup].
  destruct (finalize q acc) as [acc1|] eqn:Hfin; [|done].
  intros Hall p [->|Hp]%elem_of_cons.
  - apply finalizeAll_prefix in Hall as [rest ->].
    unfold finalize in Hfin.
    destruct (last (p_shows q)) as [a|]; [|done]. simpl in Hfin.
    destruct (decide _) as [Hin|_]; [by destruct (Hnew q ltac:(left))|].
    injection Hfin as <-. simpl. eexists.
    split; [apply elem_of_app; left; apply elem_of_app; right; left|done].
  - apply (IH acc1); [done| |done|done].
    intros p' Hp'. unfold finalize in Hfin.
    destruct (last (p_shows q)) as [a|]; [|done]. simpl in Hfin.
    destruct (decide _); injection Hfin as <-; simpl.
    + apply Hnew. by right.
    + intros [Heq%elem_of_singleton|Hold]%elem_of_union.
      * apply Hq. rewrite <- Heq.
        apply list_elem_of_fmap. by exists p'.
      * by apply (Hnew p' ltac:(by right)).
Qed.

Lemma initial_keys (movieById : gmap string Movie)
    (scheduled : list ScheduledShow) :
  (λ p, chainKey (p_shows p)) <$> initial movieById scheduled
  = showtimeId <$> scheduled.
Proof.
  unfold initial. apply list_eq. intros i.
  rewrite !list_lookup_fmap, list_lookup_imap.
  by destruct (scheduled !! i).
Qed.

Lemma finishedItineraries_singles (parse : string → option Z)
    (state : AppState) (finished : list Itinerary) :
  NoDup (st_id <$> showtimes state) →
  finishedItineraries parse state = Some finished →
  ∀ s, s ∈ buildScheduledShows parse state →
    ∃ it, it ∈ finished ∧ shows it = [s].
Proof.
  intros Hdup Hfin s Hs. unfold finishedItineraries in Hfin.
  destruct (search _ _ _ _ _ _ _ _) as [acc|] eqn:Hsearch; [|done].
  injection Hfin as <-.
  destruct (buildScheduledShows parse state) as [|s0 l] eqn:Hsched;
    [by apply elem_of_nil in Hs|].
  rewrite <- Hsched in *. rewrite Hsched in Hsearch at 4.
  simpl in Hsearch.
  destruct (finalizeAll _ _) as [acc1|] eqn:Hall; [|done].
  assert (Hpre : acc1.1 `prefix_of` acc.1).
  { destruct (expandAll _ _ _ _ _) as [e|]; [|done].
    destruct (length e =? 0)%nat; [by injection Hsearch as <-|].
    by apply search_prefix in Hsearch. }
  apply list_elem_of_lookup in Hs as [i Hi].
  assert (Hkeys : NoDup ((λ p, chainKey (p_shows p))
                          <$> initial (movieMap (movies state))
                                (buildScheduledShows parse state))).
  { rewrite initial_keys. by apply buildScheduledShows_NoDup. }
  assert (Hnew : ∀ p, p ∈ initial (movieMap (movies state))
                            (buildScheduledShows parse state) →
                      chainKey (p_shows p) ∉ (([], ∅) :
                        list Itinerary * gset string).2).
  { intros p _ Hin. simpl in Hin. by apply elem_of_empty in Hin. }
  destruct (finalizeAll_fresh _ _ _ Hkeys Hnew Hall
              (mkPartial i {[movieId s]} {[showtimeId s]} [s]
                 (showPoints (movieMap (movies state)) s) 0))
    as (it & Hit & Hshows).
  { unfold initial. apply elem_of_lookup_imap. by exists i, s. }
  exists it. split; [|done]. destruct Hpre as [rest ->].
  apply elem_of_app. by left.
Qed.

(** X22.  When showtime identities are pairwise distinct, every scheduled
    instance is a chain of its own among those found, so at least
    [min(clampInt K 1 200, n)] itineraries are returned for [n] scheduled
    instances. *)
Theorem generateItineraries_singles (parse : string → option Z)
    (state : AppState) :
  NoDup (st_id <$> showtimes state) →
  ∃ finished its,
    finishedItineraries parse state = Some finished
    ∧ generateItineraries parse state = Some its
    ∧ (∀ s, s ∈ buildScheduledShows parse state →
         ∃ it, it ∈ finished ∧ shows it = [s])
    ∧ Z.min (clampInt (maxResults (settings state)) 1 200)
            (Z.of_nat (length (buildScheduledShows parse state)))
      <= Z.of_nat (length its).
Proof.
  intros Hdup.
  destruct (generateItineraries_eq parse state)
    as (finished & Hfin & _ & _ & _ & _ & Hgen).
  exists finished. eexists. split; [done|]. split; [exact Hgen|].
  pose proof (finishedItineraries_singles parse state finished Hdup Hfin)
    as Hsingles.
  split; [done|].
  assert (Hlen : (length (buildScheduledShows parse state)
                  ≤ length finished)%nat).
  { rewrite <- (length_fmap itineraryKey finished).
    apply (NoDup_fmap_length_le showtimeId);
      [by apply buildScheduledShows_NoDup|].
    intros s Hs. destruct (Hsingles s Hs) as (it & Hit & Hshows).
    apply list_elem_of_fmap. exists it. split; [|done].
    unfold itineraryKey. by rewrite Hshows. }
  rewrite slice0_length_nonneg by (unfold clampInt; lia).
  unfold sortItineraries. rewrite sortBy_length. lia.
Qed.

Lemma generateItineraries_singles_witness :
  ∃ its,
    generateItineraries isoLocalUtc detourState = Some its
    ∧ 7 <= Z.of_nat (length its).
Proof.
  destruct (generateItineraries_singles isoLocalUtc detourState)
    as (finished & its & _ & Hits & _ & Hlen).
  { apply (bool_decide_unpack _). vm_compute. exact I. }
  exists its. split; [exact Hits|].
  etrans; [|exact Hlen]. vm_compute. discriminate.
Defined.

(** ** The result list *)

Lemma StronglySorted_lookup_lt {A : Type} (R : A → A → Prop) (l : list A)
    (i j : nat) (a b : A) :
  StronglySorted R l → (i < j)%nat →
  l !! i = Some a → l !! j = Some b → R a b.
Proof.
  intros Hl. revert i j. induction Hl as [|x l Hl IH Hx]; intros i j Hij;
    [done|].
  destruct j as [|j]; [lia|]. destruct i as [|i]; simpl.
  - intros [= <-] Hb. apply (proj1 (Forall_forall _ _) Hx).
    by eapply list_elem_of_lookup_2.
  - apply IH. lia.
Qed.

Lemma chainPoints_zero (movieById : gmap string Movie)
    (l : list ScheduledShow) :
  chainPoints movieById l = 0 ↔ Forall (λ s, showPoints movieById s = 0) l.
Proof.
  unfold chainPoints. induction l as [|s l IH]; simpl.
  { split; [constructor|done]. }
  pose proof (showPoints_bounds movieById s).
  pose proof (chainPoints_bounds movieById l) as Hl.
  unfold chainPoints in Hl. rewrite Forall_cons, <- IH. lia.
Qed.

(** X23.  No two returned itineraries list the same sequence of showtime
    identities. *)
Theorem generateItineraries_no_duplicates (parse : string → option Z)
    (state : AppState) :
  ∃ its,
    generateItineraries parse state = Some its
    ∧ NoDup ((λ it, showtimeId <$> shows it) <$> its).
Proof.
  destruct (generateItineraries_eq parse state)
    as (finished & _ & _ & Hdist & _ & _ & ->).
  eexists; split; [done|].
  apply (NoDup_fmap_1 (String.concat ">")).
  rewrite <- list_fmap_compose.
  change (String.concat ">" ∘ (λ it, showtimeId <$> shows it))
    with itineraryKey.
  eapply sublist_NoDup;
    [|apply fmap_sublist; unfold slice0; apply sublist_take].
  unfold sortItineraries. by rewrite sortBy_Permutation.
Qed.

(** X24.  Ranked movies dominate the order of the result: once an
    itinerary none of whose movies earns points appears, no itinerary
    after it contains a movie that earns points. *)
Theorem generateItineraries_ranked_first (parse : string → option Z)
    (state : AppState) :
  ∃ its,
    generateItineraries parse state = Some its
    ∧ ∀ i j a b,
        (i < j)%nat → its !! i = Some a → its !! j = Some b →
        Forall (λ s, showPoints (movieMap (movies state)) s = 0) (shows a) →
        Forall (λ s, showPoints (movieMap (movies state)) s = 0) (shows b).
Proof.
  destruct (generateItineraries_eq parse state)
    as (finished & _ & Hok & _ & _ & _ & ->).
  eexists; split; [done|].
  intros i j a b Hij Ha Hb Hzero.
  assert (Hall : Forall (itinerary_ok (trailerLeewayMins (settings state))
                    (travelMins (settings state)) (movieMap (movies state))
                    (buildScheduledShows parse state))
            (slice0 (sortItineraries finished)
               (clampInt (maxResults (settings state)) 1 200)))
    by (by apply Forall_slice0, Forall_sortBy).
  pose proof (proj1 (Forall_forall _ _) Hall a
                (list_elem_of_lookup_2 _ _ _ Ha)) as [_ Hsa _ _].
  pose proof (proj1 (Forall_forall _ _) Hall b
                (list_elem_of_lookup_2 _ _ _ Hb)) as [_ Hsb _ _].
  assert (Hr : ranksBefore a b).
  { eapply StronglySorted_lookup_lt; [|exact Hij|exact Ha|exact Hb].
    unfold slice0. apply StronglySorted_take, sortItineraries_sorted. }
  apply chainPoints_zero in Hzero. apply chainPoints_zero.
  pose proof (chainPoints_bounds (movieMap (movies state)) (shows b)).
  unfold ranksBefore in Hr. lia.
Qed.

(** ** Unknown identities *)

Lemma filter_all {A : Type} (P : A → Prop) `{!∀ x, Decision (P x)}
    (l : list A) :
  (∀ x, x ∈ l → P x) → filter P l = l.
Proof.
  induction l as [|x l IH]; intros Hall; [done|].
  rewrite filter_cons_True by (apply Hall; left).
  f_equal. apply IH. intros y Hy. apply Hall. by right.
Qed.

(** X25.  Deleting or updating under an identity the state does not know
    changes nothing: a showtime identity no entry has; a movie identity
    that no movie has and no entry refers to (for an update, that no
    movie has); a theater identity likewise. *)
Theorem unknown_identity_noop (s : AppState) (id : string) :
  ((∀ st, st ∈ showtimes s → st_id st ≠ id) → deleteShowtime id s = s)
  ∧ ((∀ m, m ∈ movies s → m_id m ≠ id) →
     (∀ patch, updateMovie id patch s = s)
     ∧ ((∀ st, st ∈ showtimes s → st_movieId st ≠ id) →
        deleteMovie id s = s))
  ∧ ((∀ t, t ∈ theaters s → th_id t ≠ id) →
     (∀ st, st ∈ showtimes s → st_theaterId st ≠ id) →
     deleteTheater id s = s).
Proof.
  destruct s as [set ms ths sts]. simpl. split; [|split].
  - intros H. unfold deleteShowtime. simpl. by rewrite filter_all.
  - intros Hm. split.
    + intros patch. unfold updateMovie. simpl. f_equal.
      induction ms as [|m ms IH]; [done|].
      rewrite fmap_cons, IH by (intros m' Hm'; apply Hm; by right).
      destruct (String.eqb_spec (m_id m) id) as [Heq|]; [|done].
      by destruct (Hm m ltac:(left)).
    + intros Hst. unfold deleteMovie. simpl. by rewrite !filter_all.
  - intros Ht Hst. unfold deleteTheater. simpl. by rewrite !filter_all.
Qed.

Lemma unknown_identity_noop_witness :
  deleteShowtime "s9" (soloState 20 200) = soloState 20 200.
Proof.
  apply (proj1 (unknown_identity_noop (soloState 20 200) "s9")).
  intros st Hst. unfold soloState in Hst. simpl in Hst.
  apply list_elem_of_singleton in Hst as ->. simpl. discriminate.
Defined.
